(** * Index selection of the autoquery client

    A shallow embedding of the Go package [autoquery]: the client's table
    metadata cache ([pullIndexMetadata]), the metadata parser
    ([parseTableIndexMetadata]), the viability analysis
    ([listIndexViabilityInfractions]) and the selector ([scoreIndexOnExpr],
    [chooseIndex]).

    Conventions of the embedding.
    - Go [string] is [string]; [int] is [Z]; [float64] is an exact rational
      [Q] (the source only produces the score 0.0 and compares numbers).
    - A Go map used for lookup is a [gmap]; a map used as a set is a [gset];
      a nil map behaves as the empty one on lookup.
    - A pointer that the source tests against nil is an [option].
    - A Go result pair (value, error) is a [result].
    - [context.Context] is passed through untouched by the source and is
      left out. *)

From Stdlib Require Import ZArith QArith List Bool Lia.
From stdpp Require Import base option list strings gmap.

Local Open Scope string_scope.
Local Open Scope list_scope.

(** ** Go results *)

Inductive result (E A : Type) : Type :=
  | Ok (a : A)
  | Err (e : E).
Arguments Ok {E A} a.
Arguments Err {E A} e.

Definition isOk {E A : Type} (r : result E A) : bool :=
  match r with Ok _ => true | Err _ => false end.

(** [strings.Join(elems, sep)] of the Go standard library. *)
Fixpoint strings_Join (elems : list string) (sep : string) : string :=
  match elems with
  | [] => ""
  | [s] => s
  | s :: rest => s +:+ sep +:+ strings_Join rest sep
  end.

(** ** Data model *)

(** Modelled from the spec: the filter interface and its variants are
    declared outside the files at hand. An expression maps an attribute to a
    filter condition; only the equals variant matters to the selection, the
    other variants are told apart by a tag. The payload plays no role. *)
Inductive exprFilter : Type :=
  | equalsFilter (value : string)
  | otherFilter (kind : nat) (value : string).

Inductive filterType : Type :=
  | equalsFilterT
  | otherFilterT (kind : nat).

Definition filterTypeOf (f : exprFilter) : filterType :=
  match f with
  | equalsFilter _ => equalsFilterT
  | otherFilter k _ => otherFilterT k
  end.

Global Instance filterType_eq_dec : EqDecision filterType.
Proof. solve_decision. Defined.

(** Modelled from the spec: [typesMatch] is declared outside the files at
    hand. It compares the dynamic types of two interface values; the nil
    interface (a missing map entry) matches no filter. *)
Definition typesMatch (a b : option exprFilter) : bool :=
  match a, b with
  | Some x, Some y => bool_decide (filterTypeOf x = filterTypeOf y)
  | None, None => true
  | _, _ => false
  end.

(** Modelled from the spec: the struct [Expression] is declared outside the
    files at hand; these are the fields the source reads. *)
Record Expression : Type := mkExpression {
  filters : gmap string exprFilter;
  consistentRead : bool;
  orderSpecified : bool;
  orderAttribute : string;
  attributesSpecified : bool;
  attributes : list string
}.

(** Modelled from the spec: the struct [tableIndex] is declared outside the
    files at hand; these are the fields the source reads and writes. *)
Record tableIndex : Type := mkTableIndex {
  Name : string;
  PartitionKey : string;
  SortKey : string;
  Size : Z;
  AttributeSet : gset string;
  IncludesAllAttributes : bool;
  ConsistentReadable : bool;
  IsSparse : bool
}.

(** Modelled from the spec: the two error structs are declared outside the
    files at hand; the source fills these fields. *)
Record ErrIndexNotViable : Type := mkErrIndexNotViable {
  IndexName : string;
  NotViableReasons : list string
}.

Record ErrNoViableIndexes : Type := mkErrNoViableIndexes {
  IndexErrs : list ErrIndexNotViable
}.

(** ** Viability analysis *)

(** The loop over [expr.attributes] that collects the selected attributes
    missing from the index's attribute set. *)
Definition collectMissingAttrs (index : tableIndex) (attrs : list string)
  : list string :=
  foldl (fun indexMissingAttrs selectedAttr =>
           if bool_decide (selectedAttr ∈ AttributeSet index)
           then indexMissingAttrs
           else indexMissingAttrs ++ [selectedAttr])
        [] attrs.

(** [listIndexViabilityInfractions]: the reason list is threaded through the
    five checks in the order of the source. *)
Definition listIndexViabilityInfractions
  (index : tableIndex) (expr : Expression) : list string :=
  let notViableReasons := [] in
  (* for index to be viable, there must be an equals filter on the index's
     partition key *)
  let notViableReasons :=
    if negb (typesMatch (filters expr !! PartitionKey index)
                        (Some (equalsFilter "")))
    then notViableReasons ++
         ["expression does not contain an equals condition on attribute: "
          +:+ PartitionKey index]
    else notViableReasons in
  (* if consistent read is specified, index must be consistent-readable *)
  let notViableReasons :=
    if consistentRead expr && negb (ConsistentReadable index)
    then notViableReasons ++
         ["global secondary index does not support consistent read"]
    else notViableReasons in
  (* if order is specified, index must sort on that attribute *)
  let notViableReasons :=
    if orderSpecified expr
       && negb (bool_decide (orderAttribute expr = SortKey index))
    then notViableReasons ++
         ["expression specifies order, which requires an index with sort key: "
          +:+ SortKey index]
    else notViableReasons in
  (* index must include selected attributes, or project all attributes if
     not specified *)
  let notViableReasons :=
    if attributesSpecified expr then
      let indexMissingAttrs := collectMissingAttrs index (attributes expr) in
      if (0 <? length indexMissingAttrs)%nat
      then notViableReasons ++
           ["index does not include attributes: "
            +:+ strings_Join indexMissingAttrs ", "]
      else notViableReasons
    else if negb (IncludesAllAttributes index)
    then notViableReasons ++
         ["expression does not select attributes, so it requires an index that projects all"]
    else notViableReasons in
  (* if index is sparse, then both partition and sort attributes must appear
     in expression *)
  let notViableReasons :=
    if IsSparse index then
      match filters expr !! SortKey index with
      | None =>
          notViableReasons ++
          ["expression does not filter on sparse secondary index's sort key: "
           +:+ SortKey index]
      | Some _ => notViableReasons
      end
    else notViableReasons in
  notViableReasons.

(** *** The five rules, one by one

    Each rule is stated on its own, as a function of the index and of the
    expression that yields no reason or one reason. The analysis above is
    compared with them below. *)

Definition reasonPartitionKey (index : tableIndex) : string :=
  "expression does not contain an equals condition on attribute: "
  +:+ PartitionKey index.

Definition reasonConsistency : string :=
  "global secondary index does not support consistent read".

Definition reasonOrder (index : tableIndex) : string :=
  "expression specifies order, which requires an index with sort key: "
  +:+ SortKey index.

Definition reasonMissingAttrs (missing : list string) : string :=
  "index does not include attributes: " +:+ strings_Join missing ", ".

Definition reasonProjectAll : string :=
  "expression does not select attributes, so it requires an index that projects all".

Definition reasonSparse (index : tableIndex) : string :=
  "expression does not filter on sparse secondary index's sort key: "
  +:+ SortKey index.

Definition hasEqualsFilter (expr : Expression) (attr : string) : bool :=
  match filters expr !! attr with
  | Some (equalsFilter _) => true
  | _ => false
  end.

Definition rulePartitionKey (index : tableIndex) (expr : Expression)
  : list string :=
  if hasEqualsFilter expr (PartitionKey index) then []
  else [reasonPartitionKey index].

Definition ruleConsistency (index : tableIndex) (expr : Expression)
  : list string :=
  if consistentRead expr && negb (ConsistentReadable index)
  then [reasonConsistency] else [].

Definition ruleOrder (index : tableIndex) (expr : Expression) : list string :=
  if orderSpecified expr
     && negb (bool_decide (orderAttribute expr = SortKey index))
  then [reasonOrder index] else [].

(** The selected attributes that are not members of the attribute set, in
    the order of the selection. *)
Definition missingAttrs (index : tableIndex) (expr : Expression)
  : list string :=
  filter (fun a => a ∉ AttributeSet index) (attributes expr).

Definition ruleAttributes (index : tableIndex) (expr : Expression)
  : list string :=
  if attributesSpecified expr then
    match missingAttrs index expr with
    | [] => []
    | missing => [reasonMissingAttrs missing]
    end
  else if IncludesAllAttributes index then [] else [reasonProjectAll].

Definition ruleSparse (index : tableIndex) (expr : Expression) : list string :=
  if IsSparse index then
    match filters expr !! SortKey index with
    | None => [reasonSparse index]
    | Some _ => []
    end
  else [].

(** ** Table descriptions, as the metadata provider returns them *)

(** Modelled from the spec: the description types belong to the AWS SDK and
    are not in the files at hand. Pointer fields that the source dereferences
    without a test are plain values: a well-formed description has them. *)
Inductive KeyType : Type := HASH | RANGE.

Record KeySchemaElement : Type := mkKeySchemaElement {
  AttributeName : string;
  keyType : KeyType
}.

Inductive ProjectionType : Type := ALL | KEYS_ONLY | INCLUDE.

Record Projection : Type := mkProjection {
  NonKeyAttributes : list string;
  projectionType : ProjectionType
}.

Record SecondaryIndexDescription : Type := mkSecondaryIndexDescription {
  siIndexName : string;
  siItemCount : Z;
  siKeySchema : list KeySchemaElement;
  siProjection : Projection
}.

Record TableDescription : Type := mkTableDescription {
  ItemCount : Z;
  KeySchema : list KeySchemaElement;
  GlobalSecondaryIndexes : list SecondaryIndexDescription;
  LocalSecondaryIndexes : list SecondaryIndexDescription
}.

(** The version of the client file: the indexes are a slice, in the order
    in which they were appended. *)
Record tableIndexMetadata : Type := mkTableIndexMetadata {
  Indexes : list tableIndex
}.

(** *** Field updates of [tableIndex] *)

Definition setKeys (index : tableIndex) (pk sk : string) : tableIndex :=
  {| Name := Name index; PartitionKey := pk; SortKey := sk;
     Size := Size index; AttributeSet := AttributeSet index;
     IncludesAllAttributes := IncludesAllAttributes index;
     ConsistentReadable := ConsistentReadable index;
     IsSparse := IsSparse index |}.

Definition setAttributes (index : tableIndex) (attrs : gset string)
  (all : bool) : tableIndex :=
  {| Name := Name index; PartitionKey := PartitionKey index;
     SortKey := SortKey index; Size := Size index; AttributeSet := attrs;
     IncludesAllAttributes := all;
     ConsistentReadable := ConsistentReadable index;
     IsSparse := IsSparse index |}.

Definition setIsSparse (index : tableIndex) (sparse : bool) : tableIndex :=
  {| Name := Name index; PartitionKey := PartitionKey index;
     SortKey := SortKey index; Size := Size index;
     AttributeSet := AttributeSet index;
     IncludesAllAttributes := IncludesAllAttributes index;
     ConsistentReadable := ConsistentReadable index;
     IsSparse := sparse |}.

(** Modelled from the spec: [loadKeysFromSchema] is declared outside the
    files at hand. The partition key is the HASH element of the key schema,
    the sort key the RANGE element if there is one; nothing else changes. *)
Definition loadKeysFromSchema (index : tableIndex)
  (schema : list KeySchemaElement) : tableIndex :=
  foldl (fun idx el =>
           match keyType el with
           | HASH => setKeys idx (AttributeName el) (SortKey idx)
           | RANGE => setKeys idx (PartitionKey idx) (AttributeName el)
           end)
        index schema.

(** Modelled from the spec: [getKeys] is declared outside the files at hand.
    The keys of an index are its partition key and, if set, its sort key. *)
Definition getKeys (index : tableIndex) : list string :=
  PartitionKey index ::
  (if bool_decide (SortKey index = "") then [] else [SortKey index]).

(** Modelled from the spec: [loadAttributesFromProjection] is declared
    outside the files at hand. An ALL projection includes all attributes;
    KEYS_ONLY and INCLUDE give the explicit set of the projected attributes
    and the keys of the table's primary index. *)
Definition loadAttributesFromProjection (index : tableIndex)
  (projection : Projection) (tablePrimaryIndexKeys : list string)
  : tableIndex :=
  match projectionType projection with
  | ALL => setAttributes index (AttributeSet index) true
  | KEYS_ONLY | INCLUDE =>
      setAttributes index
        (list_to_set (NonKeyAttributes projection)
         ∪ list_to_set tablePrimaryIndexKeys)
        false
  end.

(** The ratio of the item count of an index to the item count of its table,
    as an exact rational. The source computes in [float64] in a function that
    is not in the files at hand; for an empty table this quotient is 0, where
    a [float64] quotient is NaN or infinite. The theorems of this file do
    not rest on the value of the ratio. *)
Definition sizeRatio (indexSize tableSize : Z) : Q :=
  (inject_Z indexSize / inject_Z tableSize)%Q.

(** Modelled from the spec: [inferSparseness] is declared outside the files
    at hand. It sets [IsSparse] and nothing else; the value follows the
    sentence that a secondary index is non-sparse when the ratio of its item
    count to the table's item count is greater than or equal to the
    threshold, and sparse otherwise. The spec also says that a threshold
    above 1 makes every secondary index sparse; the two sentences disagree
    for an index that counts more items than its table, and which one the
    code follows there cannot be read off the files at hand. The theorems
    of this file rest only on the fact that the function changes no field
    but [IsSparse]. *)
Definition inferSparseness (index : tableIndex) (tableSize : Z)
  (threshold : Q) : tableIndex :=
  setIsSparse index
    (negb (Qle_bool threshold (sizeRatio (Size index) tableSize))).

(** ** The metadata provider

    [TableDescriptionProvider] is an interface with the one method [Get].
    The provider talks to an external service: a call takes the provider's
    state to a new state and yields a description or an error. *)
Class TableDescriptionProvider (P E : Type) : Type :=
  Get : P -> string -> P * result E TableDescription.

(** Go's [indexScore > bestIndexScore]. *)
Definition Qgt_bool (x y : Q) : bool := negb (Qle_bool x y).

(** The variables of the loop of [chooseIndex]. *)
Record chooseState : Type := mkChooseState {
  bestIndex : option tableIndex;
  bestIndexScore : Q;
  inviableErrs : list ErrIndexNotViable
}.

Section Client.

(** The reserved name of the primary index, a constant declared outside the
    files at hand. *)
Variable tablePrimaryIndexName : string.

Context {P E : Type} `{!TableDescriptionProvider P E}.

(** The client. The field [dynamodbService] is not read by the functions
    embedded here. *)
Record Client : Type := mkClient {
  metadataProvider : P;
  tableIndexMetadataCache : gmap string tableIndexMetadata;
  SecondaryIndexSparsenessThreshold : Q
}.

(** [NewClientWithMetadataProvider] *)
Definition NewClientWithMetadataProvider (provider : P) : Client :=
  {| metadataProvider := provider;
     tableIndexMetadataCache := ∅;
     (* by default, all secondary indexes are considered sparse *)
     SecondaryIndexSparsenessThreshold := 11 # 10 |}.

(** The body of the loop over the global secondary indexes. *)
Definition parseGlobalSecondaryIndex (client : Client) (tableSize : Z)
  (tablePrimaryIndexKeys : list string) (gsi : SecondaryIndexDescription)
  : tableIndex :=
  let index :=
    {| Name := siIndexName gsi;
       Size := siItemCount gsi;
       (* global secondary indexes do not support consistent read *)
       ConsistentReadable := false;
       PartitionKey := ""; SortKey := ""; AttributeSet := ∅;
       IncludesAllAttributes := false; IsSparse := false |} in
  let index := loadKeysFromSchema index (siKeySchema gsi) in
  let index :=
    loadAttributesFromProjection index (siProjection gsi)
      tablePrimaryIndexKeys in
  let index :=
    inferSparseness index tableSize
      (SecondaryIndexSparsenessThreshold client) in
  index.

(** The body of the loop over the local secondary indexes. *)
Definition parseLocalSecondaryIndex (client : Client) (tableSize : Z)
  (tablePrimaryIndexKeys : list string) (lsi : SecondaryIndexDescription)
  : tableIndex :=
  let index :=
    {| Name := siIndexName lsi;
       Size := siItemCount lsi;
       ConsistentReadable := true;
       IsSparse := true;
       PartitionKey := ""; SortKey := ""; AttributeSet := ∅;
       IncludesAllAttributes := false |} in
  let index := loadKeysFromSchema index (siKeySchema lsi) in
  let index :=
    loadAttributesFromProjection index (siProjection lsi)
      tablePrimaryIndexKeys in
  let index :=
    inferSparseness index tableSize
      (SecondaryIndexSparsenessThreshold client) in
  index.

(** The primary index, as [parseTableIndexMetadata] builds it. *)
Definition parsePrimaryIndex (table : TableDescription) : tableIndex :=
  let tablePrimaryIndex :=
    {| Name := tablePrimaryIndexName;
       Size := ItemCount table;
       IncludesAllAttributes := true;
       ConsistentReadable := true;
       IsSparse := false;
       PartitionKey := ""; SortKey := ""; AttributeSet := ∅ |} in
  loadKeysFromSchema tablePrimaryIndex (KeySchema table).

(** [parseTableIndexMetadata]: [output.Indexes] grows by one append per
    index. A nil slice of secondary indexes is the empty list. *)
Definition parseTableIndexMetadata (client : Client)
  (table : TableDescription) : tableIndexMetadata :=
  let output := [] in
  let appendIndex (output : list tableIndex) (index : tableIndex) :=
    output ++ [index] in
  (* extract primary key index *)
  let tableSize := ItemCount table in
  let tablePrimaryIndex := parsePrimaryIndex table in
  let output := appendIndex output tablePrimaryIndex in
  let tablePrimaryIndexKeys := getKeys tablePrimaryIndex in
  (* extract global secondary indexes *)
  let output :=
    foldl (fun output gsi =>
             appendIndex output
               (parseGlobalSecondaryIndex client tableSize
                  tablePrimaryIndexKeys gsi))
          output (GlobalSecondaryIndexes table) in
  (* extract local secondary indexes *)
  let output :=
    foldl (fun output lsi =>
             appendIndex output
               (parseLocalSecondaryIndex client tableSize
                  tablePrimaryIndexKeys lsi))
          output (LocalSecondaryIndexes table) in
  {| Indexes := output |}.

(** [pullIndexMetadata]. Besides the result, the embedding returns the
    client after the call and the table names that were asked of the
    provider during the call, in order. *)
Definition pullIndexMetadata (client : Client) (tableName : string)
  : Client * list string * result E tableIndexMetadata :=
  match tableIndexMetadataCache client !! tableName with
  | Some indexMetadata => (client, [], Ok indexMetadata)
  | None =>
      (* attempt to pull table description from metadata provider *)
      let '(provider, got) := Get (metadataProvider client) tableName in
      let client :=
        {| metadataProvider := provider;
           tableIndexMetadataCache := tableIndexMetadataCache client;
           SecondaryIndexSparsenessThreshold :=
             SecondaryIndexSparsenessThreshold client |} in
      match got with
      | Err err => (client, [tableName], Err err)
      | Ok tableDescription =>
          let indexMetadata :=
            parseTableIndexMetadata client tableDescription in
          (* add metadata to cache *)
          ({| metadataProvider := metadataProvider client;
              tableIndexMetadataCache :=
                <[tableName := indexMetadata]>
                  (tableIndexMetadataCache client);
              SecondaryIndexSparsenessThreshold :=
                SecondaryIndexSparsenessThreshold client |},
           [tableName], Ok indexMetadata)
      end
  end.

(** [scoreIndexOnExpr]: both returns of the source carry an error. *)
Definition scoreIndexOnExpr (index : tableIndex) (expr : Expression)
  : Q * option ErrIndexNotViable :=
  let indexNotViableReasons := listIndexViabilityInfractions index expr in
  if (0 <? length indexNotViableReasons)%nat then
    (0%Q, Some {| IndexName := Name index;
                  NotViableReasons := indexNotViableReasons |})
  else
    (0%Q, Some {| IndexName := Name index;
                  NotViableReasons := ["not yet implemented"] |}).

(** One turn of the loop of [chooseIndex], for a scoring function. *)
Definition chooseIndexStep
  (score : tableIndex -> Expression -> Q * option ErrIndexNotViable)
  (expr : Expression) (st : chooseState) (index : tableIndex)
  : chooseState :=
  let '(indexScore, inviableErr) := score index expr in
  match inviableErr with
  | Some inviableErr =>
      {| bestIndex := bestIndex st;
         bestIndexScore := bestIndexScore st;
         inviableErrs := inviableErrs st ++ [inviableErr] |}
  | None =>
      if Qgt_bool indexScore (bestIndexScore st) then
        {| bestIndex := Some index;
           bestIndexScore := indexScore;
           inviableErrs := inviableErrs st |}
      else st
  end.

Definition chooseIndexLoop
  (score : tableIndex -> Expression -> Q * option ErrIndexNotViable)
  (expr : Expression) (indexes : list tableIndex) : chooseState :=
  foldl (chooseIndexStep score expr)
        {| bestIndex := None; bestIndexScore := 0%Q; inviableErrs := [] |}
        indexes.

(** The error of [chooseIndex]: the provider's error, handed on as it is,
    or [ErrNoViableIndexes]. *)
Inductive chooseError : Type :=
  | providerFailure (err : E)
  | noViableIndexes (err : ErrNoViableIndexes).

(** [chooseIndex], for a scoring function. *)
Definition chooseIndexWith
  (score : tableIndex -> Expression -> Q * option ErrIndexNotViable)
  (client : Client) (tableName : string) (expr : Expression)
  : Client * list string * result chooseError tableIndex :=
  (* pull metadata from cache *)
  let '(client, calls, pulled) := pullIndexMetadata client tableName in
  match pulled with
  | Err err => (client, calls, Err (providerFailure err))
  | Ok indexMetadata =>
      (* select index with best score based on the expression *)
      let st := chooseIndexLoop score expr (Indexes indexMetadata) in
      match bestIndex st with
      | None =>
          (* no viable indexes found *)
          (client, calls,
           Err (noViableIndexes {| IndexErrs := inviableErrs st |}))
      | Some bestIndex => (client, calls, Ok bestIndex)
      end
  end.

(** [chooseIndex] scores with [scoreIndexOnExpr]. *)
Definition chooseIndex (client : Client) (tableName : string)
  (expr : Expression)
  : Client * list string * result chooseError tableIndex :=
  chooseIndexWith scoreIndexOnExpr client tableName expr.

End Client.

(** The error with which [scoreIndexOnExpr] turns an index down: the
    infractions of the index when there are some, the stub's single reason
    otherwise. *)
Definition rejection (expr : Expression) (index : tableIndex)
  : ErrIndexNotViable :=
  {| IndexName := Name index;
     NotViableReasons :=
       match listIndexViabilityInfractions index expr with
       | [] => ["not yet implemented"]
       | reasons => reasons
       end |}.

(** ** The keyed version of the metadata

    The file [tableindexmetadata.go] holds a package-level
    [parseTableIndexMetadata] whose result keys the indexes by name. It takes
    no threshold and calls no [inferSparseness]; [pullIndexMetadata] calls
    the client's method above, not this function. *)
Module Keyed.

Record tableIndexMetadata : Type := mkTableIndexMetadata {
  Indexes : gmap string tableIndex
}.

Section Parse.

Variable tablePrimaryIndexName : string.

Definition parseSecondaryIndex (consistent : bool)
  (tablePrimaryIndexKeys : list string) (si : SecondaryIndexDescription)
  : tableIndex :=
  let index :=
    {| Name := siIndexName si;
       Size := siItemCount si;
       ConsistentReadable := consistent;
       PartitionKey := ""; SortKey := ""; AttributeSet := ∅;
       IncludesAllAttributes := false; IsSparse := false |} in
  let index := loadKeysFromSchema index (siKeySchema si) in
  loadAttributesFromProjection index (siProjection si)
    tablePrimaryIndexKeys.

Definition parseTableIndexMetadata (table : TableDescription)
  : tableIndexMetadata :=
  let output : gmap string tableIndex := ∅ in
  (* extract primary key index *)
  let tablePrimaryIndex :=
    loadKeysFromSchema
      {| Name := tablePrimaryIndexName;
         Size := ItemCount table;
         IncludesAllAttributes := true;
         ConsistentReadable := true;
         PartitionKey := ""; SortKey := ""; AttributeSet := ∅;
         IsSparse := false |}
      (KeySchema table) in
  let output := <[tablePrimaryIndexName := tablePrimaryIndex]> output in
  let tablePrimaryIndexKeys := getKeys tablePrimaryIndex in
  (* extract global secondary indexes *)
  let output :=
    foldl (fun (output : gmap string tableIndex) gsi =>
             let index :=
               parseSecondaryIndex false tablePrimaryIndexKeys gsi in
             <[Name index := index]> output)
          output (GlobalSecondaryIndexes table) in
  (* extract local secondary indexes *)
  let output :=
    foldl (fun (output : gmap string tableIndex) lsi =>
             let index :=
               parseSecondaryIndex true tablePrimaryIndexKeys lsi in
             <[Name index := index]> output)
          output (LocalSecondaryIndexes table) in
  {| Indexes := output |}.

End Parse.

End Keyed.

(** ** Sample data

    A provider that answers from a script, one entry per call, and the
    tables and expressions the examples below are run on. *)

Global Instance scriptedProvider
  : TableDescriptionProvider (list (result string TableDescription)) string :=
  fun script _ =>
    match script with
    | [] => ([], Err "no description")
    | answer :: rest => (rest, answer)
    end.

Definition samplePrimaryName : string := "#primary".

Definition hashKey (attr : string) : KeySchemaElement :=
  {| AttributeName := attr; keyType := HASH |}.

Definition rangeKey (attr : string) : KeySchemaElement :=
  {| AttributeName := attr; keyType := RANGE |}.

(** A table with the primary index only, partition key [pk]. *)
Definition tablePrimaryOnly : TableDescription :=
  {| ItemCount := 100;
     KeySchema := [hashKey "pk"];
     GlobalSecondaryIndexes := [];
     LocalSecondaryIndexes := [] |}.

(** An expression with an equals filter on [pk] and nothing else. *)
Definition exprEqualsPk : Expression :=
  {| filters := {[ "pk" := equalsFilter "v" ]};
     consistentRead := false;
     orderSpecified := false; orderAttribute := "";
     attributesSpecified := false; attributes := [] |}.

(** A table with a global secondary index on [pk]/[sk2] that projects ALL,
    and a local secondary index on [pk]/[sk3]. *)
Definition gsiAll : SecondaryIndexDescription :=
  {| siIndexName := "gsi-all"; siItemCount := 100;
     siKeySchema := [hashKey "pk"; rangeKey "sk2"];
     siProjection := {| NonKeyAttributes := []; projectionType := ALL |} |}.

Definition lsiKeys : SecondaryIndexDescription :=
  {| siIndexName := "lsi-keys"; siItemCount := 40;
     siKeySchema := [hashKey "pk"; rangeKey "sk3"];
     siProjection :=
       {| NonKeyAttributes := []; projectionType := KEYS_ONLY |} |}.

Definition tableWithSecondaries : TableDescription :=
  {| ItemCount := 100;
     KeySchema := [hashKey "pk"; rangeKey "sk"];
     GlobalSecondaryIndexes := [gsiAll];
     LocalSecondaryIndexes := [lsiKeys] |}.

(** An expression with an equals filter on [pk] and a filter of another
    kind on [sk2]. *)
Definition exprPkAndSk2 : Expression :=
  {| filters := {[ "pk" := equalsFilter "v"; "sk2" := otherFilter 1 "w" ]};
     consistentRead := false;
     orderSpecified := false; orderAttribute := "";
     attributesSpecified := false; attributes := [] |}.

(** The primary index of [tablePrimaryOnly]. *)
Definition primaryPk : tableIndex :=
  {| Name := samplePrimaryName; PartitionKey := "pk"; SortKey := "";
     Size := 100; AttributeSet := ∅; IncludesAllAttributes := true;
     ConsistentReadable := true; IsSparse := false |}.

(** An expression that selects the attributes [a] and [b]. *)
Definition exprSelectAB : Expression :=
  {| filters := {[ "pk" := equalsFilter "v" ]};
     consistentRead := false;
     orderSpecified := false; orderAttribute := "";
     attributesSpecified := true; attributes := ["a"; "b"] |}.

(** A client with an empty cache over a scripted provider. *)
Definition sampleClient (script : list (result string TableDescription))
  : Client :=
  NewClientWithMetadataProvider script.

(** A sparse global secondary index on [gpk]/[gsk] that projects the
    attribute [a] only. *)
Definition sparseGsi : tableIndex :=
  {| Name := "gsi"; PartitionKey := "gpk"; SortKey := "gsk";
     Size := 50; AttributeSet := {[ "a" ]}; IncludesAllAttributes := false;
     ConsistentReadable := false; IsSparse := true |}.

(** An expression that breaks every rule on [sparseGsi]. *)
Definition exprBreaksAll : Expression :=
  {| filters := ∅;
     consistentRead := true;
     orderSpecified := true; orderAttribute := "other";
     attributesSpecified := true; attributes := ["a"; "b"; "c"] |}.

(** An expression with an equals filter on [gpk] that selects [a]. *)
Definition exprEqualsGpk : Expression :=
  {| filters := {[ "gpk" := equalsFilter "v" ]};
     consistentRead := false;
     orderSpecified := false; orderAttribute := "";
     attributesSpecified := true; attributes := ["a"] |}.

(** An index that neither includes all attributes nor projects any. *)
Definition bareIndex : tableIndex :=
  {| Name := "bare"; PartitionKey := "pk"; SortKey := "";
     Size := 0; AttributeSet := ∅; IncludesAllAttributes := false;
     ConsistentReadable := true; IsSparse := false |}.

(** An expression whose attribute selection is set and empty. *)
Definition exprSelectNothing : Expression :=
  {| filters := {[ "pk" := equalsFilter "v" ]};
     consistentRead := false;
     orderSpecified := false; orderAttribute := "";
     attributesSpecified := true; attributes := [] |}.

(** A scoring function that gives every index without infraction the same
    score above zero, for running the loop of [chooseIndex] to a choice. *)
Definition scoreViableOne (index : tableIndex) (expr : Expression)
  : Q * option ErrIndexNotViable :=
  match listIndexViabilityInfractions index expr with
  | [] => (1%Q, None)
  | reasons =>
      (0%Q, Some {| IndexName := Name index; NotViableReasons := reasons |})
  end.

(** A scoring function that accepts every index with the score 0.0. *)
Definition scoreZero (index : tableIndex) (expr : Expression)
  : Q * option ErrIndexNotViable :=
  (0%Q, None).

(** A table whose local secondary index bears the name of its global
    secondary index. *)
Definition lsiSameName : SecondaryIndexDescription :=
  {| siIndexName := "gsi-all"; siItemCount := 40;
     siKeySchema := [hashKey "pk"; rangeKey "sk3"];
     siProjection :=
       {| NonKeyAttributes := []; projectionType := KEYS_ONLY |} |}.

Definition tableSameNames : TableDescription :=
  {| ItemCount := 100;
     KeySchema := [hashKey "pk"; rangeKey "sk"];
     GlobalSecondaryIndexes := [gsiAll];
     LocalSecondaryIndexes := [lsiSameName] |}.

(** An expression that asks for a consistent read. *)
Definition exprConsistent : Expression :=
  {| filters := {[ "pk" := equalsFilter "v"; "sk2" := otherFilter 1 "w" ]};
     consistentRead := true;
     orderSpecified := false; orderAttribute := "";
     attributesSpecified := false; attributes := [] |}.

(** The entries of the keyed metadata in the order in which the keyed parser
    stores them: the primary index, the global and then the local secondary
    indexes. *)
Definition keyedEntries (primaryName : string) (table : TableDescription)
  : list tableIndex :=
  let tablePrimaryIndex :=
    loadKeysFromSchema
      {| Name := primaryName;
         Size := ItemCount table;
         IncludesAllAttributes := true;
         ConsistentReadable := true;
         PartitionKey := ""; SortKey := ""; AttributeSet := ∅;
         IsSparse := false |}
      (KeySchema table) in
  tablePrimaryIndex
  :: (Keyed.parseSecondaryIndex false (getKeys tablePrimaryIndex)
        <$> GlobalSecondaryIndexes table)
  ++ (Keyed.parseSecondaryIndex true (getKeys tablePrimaryIndex)
        <$> LocalSecondaryIndexes table).

(** A client whose threshold has been set after its creation. *)
Definition withThreshold {P : Type} (client : @Client P) (threshold : Q)
  : @Client P :=
  {| metadataProvider := metadataProvider client;
     tableIndexMetadataCache := tableIndexMetadataCache client;
     SecondaryIndexSparsenessThreshold := threshold |}.

(** * Properties of the viability analysis *)

Section Viability.

Implicit Types (index : tableIndex) (expr : Expression).

(** The loop collects the selected attributes outside the attribute set,
    in the order of the selection. *)
Lemma foldl_missing_filter index (attrs acc : list string) :
  foldl (fun indexMissingAttrs selectedAttr =>
           if bool_decide (selectedAttr ∈ AttributeSet index)
           then indexMissingAttrs
           else indexMissingAttrs ++ [selectedAttr])
        acc attrs
  = acc ++ filter (fun a => a ∉ AttributeSet index) attrs.
Proof.
  revert acc. induction attrs as [|a attrs IH]; intros acc; simpl.
  - by rewrite app_nil_r.
  - rewrite IH, filter_cons.
    case_bool_decide; case_decide; try done.
    by rewrite <- app_assoc.
Qed.

Lemma collectMissingAttrs_filter index expr :
  collectMissingAttrs index (attributes expr) = missingAttrs index expr.
Proof. apply foldl_missing_filter. Qed.

(** The type test of the source accepts an entry exactly when it is an
    equals filter. *)
Lemma typesMatch_equalsFilter expr attr :
  typesMatch (filters expr !! attr) (Some (equalsFilter ""))
  = hasEqualsFilter expr attr.
Proof.
  unfold hasEqualsFilter.
  destruct (filters expr !! attr) as [[v|k v]|]; reflexivity.
Qed.

Lemma hasEqualsFilter_true expr attr :
  hasEqualsFilter expr attr = true
  <-> exists v, filters expr !! attr = Some (equalsFilter v).
Proof.
  unfold hasEqualsFilter.
  destruct (filters expr !! attr) as [[v|k v]|]; split;
    try discriminate; eauto; intros [w Hw]; discriminate.
Qed.

(** The analysis is the concatenation of the five rules. *)
Lemma listIndexViabilityInfractions_rules index expr :
  listIndexViabilityInfractions index expr
  = rulePartitionKey index expr ++ ruleConsistency index expr
    ++ ruleOrder index expr ++ ruleAttributes index expr
    ++ ruleSparse index expr.
Proof.
  unfold listIndexViabilityInfractions, rulePartitionKey, ruleConsistency,
    ruleOrder, ruleAttributes, ruleSparse.
  rewrite typesMatch_equalsFilter, collectMissingAttrs_filter.
  fold (reasonPartitionKey index) (reasonOrder index) (reasonSparse index).
  destruct (hasEqualsFilter expr (PartitionKey index));
    destruct (consistentRead expr && negb (ConsistentReadable index));
    destruct (orderSpecified expr
              && negb (bool_decide (orderAttribute expr = SortKey index)));
    destruct (attributesSpecified expr);
    destruct (missingAttrs index expr) as [|m ms];
    destruct (IncludesAllAttributes index);
    destruct (IsSparse index);
    destruct (filters expr !! SortKey index);
    reflexivity.
Qed.

(** Each rule yields no reason or one reason. *)
Lemma rulePartitionKey_length index expr :
  (length (rulePartitionKey index expr) <= 1)%nat.
Proof.
  unfold rulePartitionKey.
  destruct (hasEqualsFilter _ _); simpl; lia.
Qed.

Lemma ruleConsistency_length index expr :
  (length (ruleConsistency index expr) <= 1)%nat.
Proof. unfold ruleConsistency. destruct (_ && _); simpl; lia. Qed.

Lemma ruleOrder_length index expr :
  (length (ruleOrder index expr) <= 1)%nat.
Proof. unfold ruleOrder. destruct (_ && _); simpl; lia. Qed.

Lemma ruleAttributes_length index expr :
  (length (ruleAttributes index expr) <= 1)%nat.
Proof.
  unfold ruleAttributes.
  destruct (attributesSpecified expr), (missingAttrs index expr),
    (IncludesAllAttributes index); simpl; lia.
Qed.

Lemma ruleSparse_length index expr :
  (length (ruleSparse index expr) <= 1)%nat.
Proof.
  unfold ruleSparse.
  destruct (IsSparse index), (filters expr !! SortKey index); simpl; lia.
Qed.

(** A reason is in the list exactly when one of the rules gives it. *)
Lemma elem_of_infractions index expr (reason : string) :
  reason ∈ listIndexViabilityInfractions index expr
  <-> reason ∈ rulePartitionKey index expr
      \/ reason ∈ ruleConsistency index expr
      \/ reason ∈ ruleOrder index expr
      \/ reason ∈ ruleAttributes index expr
      \/ reason ∈ ruleSparse index expr.
Proof.
  rewrite listIndexViabilityInfractions_rules.
  rewrite !elem_of_app. tauto.
Qed.

Lemma elem_of_rulePartitionKey index expr reason :
  reason ∈ rulePartitionKey index expr ->
  hasEqualsFilter expr (PartitionKey index) = false
  /\ reason = reasonPartitionKey index.
Proof.
  unfold rulePartitionKey. destruct (hasEqualsFilter _ _).
  - intros H; inversion H.
  - by intros ->%list_elem_of_singleton.
Qed.

Lemma elem_of_ruleConsistency index expr reason :
  reason ∈ ruleConsistency index expr ->
  consistentRead expr = true /\ ConsistentReadable index = false
  /\ reason = reasonConsistency.
Proof.
  unfold ruleConsistency.
  destruct (consistentRead expr), (ConsistentReadable index); simpl;
    try (intros H; by inversion H).
  by intros ->%list_elem_of_singleton.
Qed.

Lemma elem_of_ruleOrder index expr reason :
  reason ∈ ruleOrder index expr ->
  orderSpecified expr = true /\ orderAttribute expr <> SortKey index
  /\ reason = reasonOrder index.
Proof.
  unfold ruleOrder.
  destruct (orderSpecified expr); simpl; [|intros H; by inversion H].
  case_bool_decide as Hne; simpl; [intros H; by inversion H|].
  by intros ->%list_elem_of_singleton.
Qed.

Lemma elem_of_ruleAttributes index expr reason :
  reason ∈ ruleAttributes index expr ->
  (attributesSpecified expr = true
   /\ missingAttrs index expr <> []
   /\ reason = reasonMissingAttrs (missingAttrs index expr))
  \/ (attributesSpecified expr = false
      /\ IncludesAllAttributes index = false
      /\ reason = reasonProjectAll).
Proof.
  unfold ruleAttributes.
  destruct (attributesSpecified expr).
  - destruct (missingAttrs index expr) as [|m ms] eqn:Hm.
    + intros H; inversion H.
    + intros ->%list_elem_of_singleton. by left.
  - destruct (IncludesAllAttributes index).
    + intros H; inversion H.
    + intros ->%list_elem_of_singleton. by right.
Qed.

Lemma elem_of_ruleSparse index expr reason :
  reason ∈ ruleSparse index expr ->
  IsSparse index = true
  /\ filters expr !! SortKey index = None
  /\ reason = reasonSparse index.
Proof.
  unfold ruleSparse.
  destruct (IsSparse index); [|intros H; inversion H].
  destruct (filters expr !! SortKey index).
  - intros H; inversion H.
  - by intros ->%list_elem_of_singleton.
Qed.

End Viability.

(** The reasons of different rules are different strings: they differ
    before the place where an attribute name is spliced in. *)
Ltac reason_neq :=
  unfold reasonSparse, reasonPartitionKey, reasonConsistency, reasonOrder,
    reasonMissingAttrs, reasonProjectAll;
  simpl; discriminate.

Section Membership.

Implicit Types (index : tableIndex) (expr : Expression).

Local Ltac other_rule H :=
  let Heq := fresh "Heq" in
  first
    [ apply elem_of_rulePartitionKey in H as (_ & Heq)
    | apply elem_of_ruleConsistency in H as (_ & _ & Heq)
    | apply elem_of_ruleOrder in H as (_ & _ & Heq)
    | apply elem_of_ruleAttributes in H as [(_ & _ & Heq)|(_ & _ & Heq)]
    | apply elem_of_ruleSparse in H as (_ & _ & Heq) ];
  exfalso; revert Heq; reason_neq.

Lemma reasonPartitionKey_elem index expr :
  reasonPartitionKey index ∈ listIndexViabilityInfractions index expr
  <-> hasEqualsFilter expr (PartitionKey index) = false.
Proof.
  rewrite elem_of_infractions. split.
  - intros [H|[H|[H|[H|H]]]]; try other_rule H.
    by apply elem_of_rulePartitionKey in H as [? _].
  - intros Hc. left. unfold rulePartitionKey. rewrite Hc.
    by apply list_elem_of_singleton.
Qed.

Lemma reasonConsistency_elem index expr :
  reasonConsistency ∈ listIndexViabilityInfractions index expr
  <-> consistentRead expr = true /\ ConsistentReadable index = false.
Proof.
  rewrite elem_of_infractions. split.
  - intros [H|[H|[H|[H|H]]]]; try other_rule H.
    by apply elem_of_ruleConsistency in H as (? & ? & _).
  - intros [Hc Hr]. right; left. unfold ruleConsistency.
    rewrite Hc, Hr. by apply list_elem_of_singleton.
Qed.

Lemma reasonOrder_elem index expr :
  reasonOrder index ∈ listIndexViabilityInfractions index expr
  <-> orderSpecified expr = true /\ orderAttribute expr <> SortKey index.
Proof.
  rewrite elem_of_infractions. split.
  - intros [H|[H|[H|[H|H]]]]; try other_rule H.
    by apply elem_of_ruleOrder in H as (? & ? & _).
  - intros [Hc Hr]. right; right; left. unfold ruleOrder.
    rewrite Hc, bool_decide_eq_false_2 by done.
    by apply list_elem_of_singleton.
Qed.

Lemma reasonMissingAttrs_elem index expr :
  reasonMissingAttrs (missingAttrs index expr)
    ∈ listIndexViabilityInfractions index expr
  <-> attributesSpecified expr = true /\ missingAttrs index expr <> [].
Proof.
  rewrite elem_of_infractions. split.
  - intros [H|[H|[H|[H|H]]]]; try other_rule H.
    apply elem_of_ruleAttributes in H as [(? & ? & _)|(_ & _ & H)]; [done|].
    exfalso; revert H; reason_neq.
  - intros [Hc Hr]. do 3 right; left. unfold ruleAttributes.
    rewrite Hc. destruct (missingAttrs index expr); [done|].
    by apply list_elem_of_singleton.
Qed.

Lemma reasonProjectAll_elem index expr :
  reasonProjectAll ∈ listIndexViabilityInfractions index expr
  <-> attributesSpecified expr = false
      /\ IncludesAllAttributes index = false.
Proof.
  rewrite elem_of_infractions. split.
  - intros [H|[H|[H|[H|H]]]]; try other_rule H.
    apply elem_of_ruleAttributes in H as [(_ & _ & H)|(? & ? & _)]; [|done].
    exfalso; revert H; reason_neq.
  - intros [Hc Hr]. do 3 right; left. unfold ruleAttributes.
    rewrite Hc, Hr. by apply list_elem_of_singleton.
Qed.

Lemma reasonSparse_elem index expr :
  reasonSparse index ∈ listIndexViabilityInfractions index expr
  <-> IsSparse index = true /\ filters expr !! SortKey index = None.
Proof.
  rewrite elem_of_infractions. split.
  - intros [H|[H|[H|[H|H]]]]; try other_rule H.
    by apply elem_of_ruleSparse in H as (? & ? & _).
  - intros [Hc Hr]. do 4 right. unfold ruleSparse.
    rewrite Hc, Hr. by apply list_elem_of_singleton.
Qed.

End Membership.

(** * The claims on the viability analysis *)

Section ViabilityClaims.

Implicit Types (index : tableIndex) (expr : Expression).

(** C4. For every index and expression the analysis evaluates the five
    rules independently and collects every violation: the reason list is
    the concatenation, in the fixed order partition-key equality,
    consistency, ordering, attribute coverage, sparseness, of what each
    rule yields on its own, and the reason of a rule is in the list
    exactly when the condition of that rule alone holds. The list is a
    function of the index and the expression, so the same pair always
    yields the same sequence. *)
Theorem infractions_all_rules_fixed_order index expr :
  listIndexViabilityInfractions index expr
  = rulePartitionKey index expr ++ ruleConsistency index expr
    ++ ruleOrder index expr ++ ruleAttributes index expr
    ++ ruleSparse index expr
  /\ (reasonPartitionKey index ∈ listIndexViabilityInfractions index expr
      <-> hasEqualsFilter expr (PartitionKey index) = false)
  /\ (reasonConsistency ∈ listIndexViabilityInfractions index expr
      <-> consistentRead expr = true /\ ConsistentReadable index = false)
  /\ (reasonOrder index ∈ listIndexViabilityInfractions index expr
      <-> orderSpecified expr = true
          /\ orderAttribute expr <> SortKey index)
  /\ (reasonMissingAttrs (missingAttrs index expr)
        ∈ listIndexViabilityInfractions index expr
      <-> attributesSpecified expr = true
          /\ missingAttrs index expr <> [])
  /\ (reasonProjectAll ∈ listIndexViabilityInfractions index expr
      <-> attributesSpecified expr = false
          /\ IncludesAllAttributes index = false)
  /\ (reasonSparse index ∈ listIndexViabilityInfractions index expr
      <-> IsSparse index = true /\ filters expr !! SortKey index = None).
Proof.
  split; [apply listIndexViabilityInfractions_rules|].
  split; [apply reasonPartitionKey_elem|].
  split; [apply reasonConsistency_elem|].
  split; [apply reasonOrder_elem|].
  split; [apply reasonMissingAttrs_elem|].
  split; [apply reasonProjectAll_elem|apply reasonSparse_elem].
Qed.

(** All five rules can be broken at once; the five reasons come in the
    fixed order. *)
Example all_five_rules_fire :
  listIndexViabilityInfractions sparseGsi exprBreaksAll
  = [ "expression does not contain an equals condition on attribute: gpk";
      "global secondary index does not support consistent read";
      "expression specifies order, which requires an index with sort key: gsk";
      "index does not include attributes: b, c";
      "expression does not filter on sparse secondary index's sort key: gsk" ].
Proof. vm_compute. reflexivity. Qed.

(** C10. For every index and expression the analysis returns at most five
    reasons, at most one per rule; attribute coverage gives at most one
    combined reason, whatever the number of selected attributes the index
    is missing. *)
Theorem infractions_at_most_five index expr :
  (length (listIndexViabilityInfractions index expr) <= 5)%nat
  /\ exists r1 r2 r3 r4 r5 : list string,
       listIndexViabilityInfractions index expr
       = r1 ++ r2 ++ r3 ++ r4 ++ r5
       /\ (r1 = [] \/ r1 = [reasonPartitionKey index])
       /\ (r2 = [] \/ r2 = [reasonConsistency])
       /\ (r3 = [] \/ r3 = [reasonOrder index])
       /\ (r4 = [] \/ r4 = [reasonMissingAttrs (missingAttrs index expr)]
           \/ r4 = [reasonProjectAll])
       /\ (r5 = [] \/ r5 = [reasonSparse index]).
Proof.
  split.
  - rewrite listIndexViabilityInfractions_rules, !length_app.
    pose proof (rulePartitionKey_length index expr).
    pose proof (ruleConsistency_length index expr).
    pose proof (ruleOrder_length index expr).
    pose proof (ruleAttributes_length index expr).
    pose proof (ruleSparse_length index expr).
    lia.
  - exists (rulePartitionKey index expr), (ruleConsistency index expr),
      (ruleOrder index expr), (ruleAttributes index expr),
      (ruleSparse index expr).
    split; [apply listIndexViabilityInfractions_rules|].
    unfold rulePartitionKey, ruleConsistency, ruleOrder, ruleAttributes,
      ruleSparse.
    repeat split.
    + destruct (hasEqualsFilter _ _); auto.
    + destruct (_ && _); auto.
    + destruct (_ && _); auto.
    + destruct (attributesSpecified expr), (missingAttrs index expr),
        (IncludesAllAttributes index); auto.
    + destruct (IsSparse index), (filters expr !! SortKey index); auto.
Qed.

(** C5. For every sparse index and every expression, the sparseness rule
    gives its reason, which names the sort key of the index, exactly when
    the filters of the expression have no entry for that sort key; an
    entry of any kind satisfies the rule. The reason, when given, is the
    last of the list. *)
Theorem sparse_rule_needs_sort_key_entry index expr :
  IsSparse index = true ->
  (reasonSparse index ∈ listIndexViabilityInfractions index expr
   <-> filters expr !! SortKey index = None)
  /\ (forall f : exprFilter,
        filters expr !! SortKey index = Some f ->
        reasonSparse index ∉ listIndexViabilityInfractions index expr)
  /\ listIndexViabilityInfractions index expr
     = rulePartitionKey index expr ++ ruleConsistency index expr
       ++ ruleOrder index expr ++ ruleAttributes index expr
       ++ match filters expr !! SortKey index with
          | None =>
              ["expression does not filter on sparse secondary index's sort key: "
               +:+ SortKey index]
          | Some _ => []
          end.
Proof.
  intros Hsparse. split; [|split].
  - rewrite reasonSparse_elem. split; [by intros [_ ?]|by intros ?].
  - intros f Hf. rewrite reasonSparse_elem. intros [_ Hnone]. congruence.
  - rewrite listIndexViabilityInfractions_rules.
    unfold ruleSparse. by rewrite Hsparse.
Qed.

Lemma sparse_rule_needs_sort_key_entry_witness :
  IsSparse sparseGsi = true
  /\ reasonSparse sparseGsi
       ∈ listIndexViabilityInfractions sparseGsi exprEqualsGpk.
Proof.
  split; [reflexivity|].
  apply (proj1 (sparse_rule_needs_sort_key_entry sparseGsi exprEqualsGpk
                  eq_refl)).
  reflexivity.
Defined.

(** C9. For every index, when the expression has [attributesSpecified]
    set and an empty attribute list, attribute coverage gives no reason,
    also when the index neither includes all attributes nor projects any:
    the requirement that the index include all attributes is applied only
    when [attributesSpecified] is false. *)
Theorem empty_selection_passes_coverage index expr :
  attributesSpecified expr = true ->
  attributes expr = [] ->
  ruleAttributes index expr = []
  /\ listIndexViabilityInfractions index expr
     = rulePartitionKey index expr ++ ruleConsistency index expr
       ++ ruleOrder index expr ++ ruleSparse index expr
  /\ (reasonProjectAll ∉ listIndexViabilityInfractions index expr)
  /\ (forall missing : list string,
        reasonMissingAttrs missing
          ∉ listIndexViabilityInfractions index expr)
  /\ (forall expr' : Expression,
        reasonProjectAll ∈ listIndexViabilityInfractions index expr' ->
        attributesSpecified expr' = false).
Proof.
  intros Hspec Hattrs.
  assert (Hrule : ruleAttributes index expr = []).
  { unfold ruleAttributes, missingAttrs. by rewrite Hspec, Hattrs. }
  split; [done|]. split; [|split; [|split]].
  - by rewrite listIndexViabilityInfractions_rules, Hrule.
  - rewrite reasonProjectAll_elem. intros [? _]. congruence.
  - intros missing. rewrite elem_of_infractions, Hrule.
    intros [H|[H|[H|[H|H]]]].
    + apply elem_of_rulePartitionKey in H as (_ & Heq).
      revert Heq. reason_neq.
    + apply elem_of_ruleConsistency in H as (_ & _ & Heq).
      revert Heq. reason_neq.
    + apply elem_of_ruleOrder in H as (_ & _ & Heq). revert Heq. reason_neq.
    + inversion H.
    + apply elem_of_ruleSparse in H as (_ & _ & Heq). revert Heq. reason_neq.
  - intros expr'. rewrite reasonProjectAll_elem. tauto.
Qed.

Lemma empty_selection_passes_coverage_witness :
  IncludesAllAttributes bareIndex = false
  /\ AttributeSet bareIndex = ∅
  /\ listIndexViabilityInfractions bareIndex exprSelectNothing = [].
Proof.
  split; [reflexivity|]. split; [reflexivity|].
  rewrite (proj1 (proj2 (empty_selection_passes_coverage
                           bareIndex exprSelectNothing eq_refl eq_refl))).
  reflexivity.
Defined.

End ViabilityClaims.

(** ** Attribute coverage and the indexes that include all attributes *)

Section Coverage.

Implicit Types (index : tableIndex) (expr : Expression).

Lemma elem_of_missingAttrs index expr (a : string) :
  a ∈ missingAttrs index expr
  <-> a ∈ attributes expr /\ a ∉ AttributeSet index.
Proof. unfold missingAttrs. rewrite list_elem_of_filter. tauto. Qed.

(** An explicit selection whose attributes are all members of the
    attribute set passes the rule. *)
Lemma coverage_passes_for_members index expr :
  attributesSpecified expr = true ->
  (forall a : string, a ∈ attributes expr -> a ∈ AttributeSet index) ->
  ruleAttributes index expr = [].
Proof.
  intros Hspec Hall. unfold ruleAttributes. rewrite Hspec.
  destruct (missingAttrs index expr) as [|m ms] eqn:Hm; [done|].
  assert (Hin : m ∈ missingAttrs index expr) by (rewrite Hm; left).
  apply elem_of_missingAttrs in Hin as [Hin Hnot].
  by apply Hall in Hin.
Qed.

(** An index that misses selected attributes gets one combined reason that
    names each of them. *)
Lemma coverage_one_combined_reason index expr :
  attributesSpecified expr = true ->
  missingAttrs index expr <> [] ->
  ruleAttributes index expr
  = ["index does not include attributes: "
     +:+ strings_Join (missingAttrs index expr) ", "].
Proof.
  intros Hspec Hmiss. unfold ruleAttributes. rewrite Hspec.
  by destruct (missingAttrs index expr).
Qed.

(** Under an explicit selection the rule does not read
    [IncludesAllAttributes]. *)
Lemma coverage_ignores_IncludesAllAttributes index expr (all : bool) :
  attributesSpecified expr = true ->
  ruleAttributes (setAttributes index (AttributeSet index) all) expr
  = ruleAttributes index expr.
Proof. intros Hspec. unfold ruleAttributes. by rewrite Hspec. Qed.

(** Hence an index with an empty attribute set fails every non-empty
    explicit selection, also when it includes all attributes. *)
Lemma empty_attribute_set_fails_selection index expr :
  attributesSpecified expr = true ->
  AttributeSet index = ∅ ->
  attributes expr <> [] ->
  ruleAttributes index expr = [reasonMissingAttrs (attributes expr)].
Proof.
  intros Hspec Hset Hattrs.
  assert (Hm : missingAttrs index expr = attributes expr).
  { unfold missingAttrs. rewrite Hset.
    induction (attributes expr) as [|a l IH]; [done|].
    rewrite filter_cons.
    destruct (decide (a ∉ (∅ : gset string))) as [_|Hn];
      [|exfalso; apply Hn; set_solver].
    destruct l as [|b l]; [done|]. by rewrite IH. }
  unfold ruleAttributes. rewrite Hspec, Hm.
  by destruct (attributes expr).
Qed.

(** Scenario D, first half: an index that projects [a] only is turned
    down with a reason that names [b]. *)
Example coverage_names_missing_attribute :
  ruleAttributes sparseGsi exprSelectAB
  = ["index does not include attributes: b"].
Proof. vm_compute. reflexivity. Qed.

(** C2, at the input where the code departs from it. The primary index
    includes all attributes and has an empty attribute set; on the
    explicit selection of [a] and [b] the analysis turns it down for
    missing both. *)
Theorem primary_index_fails_explicit_selection :
  parsePrimaryIndex samplePrimaryName tablePrimaryOnly = primaryPk
  /\ IncludesAllAttributes primaryPk = true
  /\ attributesSpecified exprSelectAB = true
  /\ listIndexViabilityInfractions primaryPk exprSelectAB
     = ["index does not include attributes: a, b"].
Proof. repeat split; vm_compute; reflexivity. Qed.

End Coverage.

(** * Properties of the metadata parser *)

Section FieldUpdates.

Implicit Types (index : tableIndex).

(** [loadKeysFromSchema] changes the two keys only. *)
Lemma loadKeysFromSchema_fields index (schema : list KeySchemaElement) :
  let index' := loadKeysFromSchema index schema in
  Name index' = Name index
  /\ Size index' = Size index
  /\ AttributeSet index' = AttributeSet index
  /\ IncludesAllAttributes index' = IncludesAllAttributes index
  /\ ConsistentReadable index' = ConsistentReadable index
  /\ IsSparse index' = IsSparse index.
Proof.
  unfold loadKeysFromSchema. revert index.
  induction schema as [|el schema IH]; intros index; simpl; [done|].
  destruct (IH (match keyType el with
                | HASH => setKeys index (AttributeName el) (SortKey index)
                | RANGE =>
                    setKeys index (PartitionKey index) (AttributeName el)
                end)) as (-> & -> & -> & -> & -> & ->).
  by destruct (keyType el).
Qed.

(** [loadAttributesFromProjection] changes the attribute set and the
    all-attributes flag only. *)
Lemma loadAttributesFromProjection_fields index (projection : Projection)
  (keys : list string) :
  let index' := loadAttributesFromProjection index projection keys in
  Name index' = Name index
  /\ Size index' = Size index
  /\ PartitionKey index' = PartitionKey index
  /\ SortKey index' = SortKey index
  /\ ConsistentReadable index' = ConsistentReadable index
  /\ IsSparse index' = IsSparse index.
Proof.
  unfold loadAttributesFromProjection.
  by destruct (projectionType projection).
Qed.

(** One append per element is a map. *)
Lemma foldl_append_map {A B : Type} (f : A -> B) (l : list A)
  (acc : list B) :
  foldl (fun output x => output ++ [f x]) acc l = acc ++ (f <$> l).
Proof.
  revert acc. induction l as [|x l IH]; intros acc; simpl.
  - by rewrite app_nil_r.
  - by rewrite IH, <- app_assoc.
Qed.

End FieldUpdates.

Section Parser.

Variable tablePrimaryIndexName : string.

Context {P : Type}.

Implicit Types (client : @Client P) (table : TableDescription).
Implicit Types (d : SecondaryIndexDescription).

Local Abbreviation parse := (parseTableIndexMetadata tablePrimaryIndexName).
Local Abbreviation primaryOf := (parsePrimaryIndex tablePrimaryIndexName).

(** The parsed sequence: the primary index, then the global secondary
    indexes, then the local secondary indexes, each group in the order of
    the description. *)
Lemma parseTableIndexMetadata_Indexes client table :
  Indexes (parse client table)
  = primaryOf table
    :: (parseGlobalSecondaryIndex client (ItemCount table)
          (getKeys (primaryOf table)) <$> GlobalSecondaryIndexes table)
    ++ (parseLocalSecondaryIndex client (ItemCount table)
          (getKeys (primaryOf table)) <$> LocalSecondaryIndexes table).
Proof.
  unfold parseTableIndexMetadata. simpl.
  rewrite !foldl_append_map. by rewrite <- app_assoc.
Qed.

(** The parser reads the threshold of the client and nothing else. *)
Lemma parseTableIndexMetadata_threshold client client' table :
  SecondaryIndexSparsenessThreshold client
  = SecondaryIndexSparsenessThreshold client' ->
  parse client table = parse client' table.
Proof.
  intros Hthr.
  unfold parseTableIndexMetadata, parseGlobalSecondaryIndex,
    parseLocalSecondaryIndex.
  by rewrite Hthr.
Qed.

Lemma parsePrimaryIndex_fields table :
  Name (primaryOf table) = tablePrimaryIndexName
  /\ Size (primaryOf table) = ItemCount table
  /\ AttributeSet (primaryOf table) = ∅
  /\ IncludesAllAttributes (primaryOf table) = true
  /\ ConsistentReadable (primaryOf table) = true
  /\ IsSparse (primaryOf table) = false.
Proof.
  unfold parsePrimaryIndex.
  by destruct (loadKeysFromSchema_fields
                 {| Name := tablePrimaryIndexName;
                    Size := ItemCount table;
                    IncludesAllAttributes := true;
                    ConsistentReadable := true;
                    IsSparse := false;
                    PartitionKey := ""; SortKey := "";
                    AttributeSet := ∅ |}
                 (KeySchema table)) as (-> & -> & -> & -> & -> & ->).
Qed.

Lemma parseGlobalSecondaryIndex_fields client (tableSize : Z)
  (keys : list string) d :
  let index := parseGlobalSecondaryIndex client tableSize keys d in
  Name index = siIndexName d
  /\ Size index = siItemCount d
  /\ ConsistentReadable index = false
  /\ IsSparse index
     = negb (Qle_bool (SecondaryIndexSparsenessThreshold client)
               (sizeRatio (siItemCount d) tableSize)).
Proof.
  unfold parseGlobalSecondaryIndex, inferSparseness. simpl.
  match goal with
  | |- context [loadAttributesFromProjection ?i ?p ?k] =>
      destruct (loadAttributesFromProjection_fields i p k)
        as (-> & -> & _ & _ & -> & _)
  end.
  match goal with
  | |- context [loadKeysFromSchema ?i ?s] =>
      destruct (loadKeysFromSchema_fields i s) as (-> & -> & _ & _ & -> & _)
  end.
  done.
Qed.

Lemma parseLocalSecondaryIndex_fields client (tableSize : Z)
  (keys : list string) d :
  let index := parseLocalSecondaryIndex client tableSize keys d in
  Name index = siIndexName d
  /\ Size index = siItemCount d
  /\ ConsistentReadable index = true
  /\ IsSparse index
     = negb (Qle_bool (SecondaryIndexSparsenessThreshold client)
               (sizeRatio (siItemCount d) tableSize)).
Proof.
  unfold parseLocalSecondaryIndex, inferSparseness. simpl.
  match goal with
  | |- context [loadAttributesFromProjection ?i ?p ?k] =>
      destruct (loadAttributesFromProjection_fields i p k)
        as (-> & -> & _ & _ & -> & _)
  end.
  match goal with
  | |- context [loadKeysFromSchema ?i ?s] =>
      destruct (loadKeysFromSchema_fields i s) as (-> & -> & _ & _ & -> & _)
  end.
  done.
Qed.

End Parser.

(** The keyed parser of [tableindexmetadata.go] predates the threshold: no
    index it yields is sparse. *)
Lemma keyed_parse_never_sparse (primaryName : string)
  (table : TableDescription) (name : string) (index : tableIndex) :
  Keyed.Indexes (Keyed.parseTableIndexMetadata primaryName table) !! name
  = Some index ->
  IsSparse index = false.
Proof.
  assert (Hsec : forall consistent keys si,
             IsSparse (Keyed.parseSecondaryIndex consistent keys si) = false).
  { intros consistent keys si. unfold Keyed.parseSecondaryIndex.
    match goal with
    | |- context [loadAttributesFromProjection ?i ?p ?k] =>
        destruct (loadAttributesFromProjection_fields i p k)
          as (_ & _ & _ & _ & _ & ->)
    end.
    match goal with
    | |- context [loadKeysFromSchema ?i ?s] =>
        by destruct (loadKeysFromSchema_fields i s)
          as (_ & _ & _ & _ & _ & ->)
    end. }
  assert (Hfold : forall consistent keys l (m : gmap string tableIndex),
             map_Forall (fun _ i => IsSparse i = false) m ->
             map_Forall (fun _ i => IsSparse i = false)
               (foldl (fun (output : gmap string tableIndex) si =>
                         let index :=
                           Keyed.parseSecondaryIndex consistent keys si in
                         <[Name index := index]> output) m l)).
  { intros consistent keys l. induction l as [|si l IH]; intros m Hm; [done|].
    simpl. apply IH. by apply map_Forall_insert_2. }
  intros Hlook. revert name index Hlook.
  change (map_Forall (fun _ i => IsSparse i = false)
            (Keyed.Indexes (Keyed.parseTableIndexMetadata primaryName table))).
  unfold Keyed.parseTableIndexMetadata. simpl.
  apply Hfold, Hfold. apply map_Forall_insert_2; [|apply map_Forall_empty].
  match goal with
  | |- context [loadKeysFromSchema ?i ?s] =>
      by destruct (loadKeysFromSchema_fields i s) as (_ & _ & _ & _ & _ & ->)
  end.
Qed.

(** * Properties of the metadata cache *)

Section Cache.

Variable tablePrimaryIndexName : string.

Context {P E : Type} `{!TableDescriptionProvider P E}.

Implicit Types (client : @Client P) (tableName : string).

Local Abbreviation pull := (pullIndexMetadata tablePrimaryIndexName).
Local Abbreviation parse := (parseTableIndexMetadata tablePrimaryIndexName).

(** A hit: the cached metadata, no call, the client as it was. *)
Lemma pullIndexMetadata_hit client tableName
  (indexMetadata : tableIndexMetadata) :
  tableIndexMetadataCache client !! tableName = Some indexMetadata ->
  pull client tableName = (client, [], Ok indexMetadata).
Proof. intros Hhit. unfold pullIndexMetadata. by rewrite Hhit. Qed.

(** A miss on which the provider fails: only the provider has moved on. *)
Lemma pullIndexMetadata_miss_err client tableName (provider' : P) (err : E) :
  tableIndexMetadataCache client !! tableName = None ->
  Get (metadataProvider client) tableName = (provider', Err err) ->
  pull client tableName
  = ({| metadataProvider := provider';
        tableIndexMetadataCache := tableIndexMetadataCache client;
        SecondaryIndexSparsenessThreshold :=
          SecondaryIndexSparsenessThreshold client |},
     [tableName], Err err).
Proof.
  intros Hmiss Hget. unfold pullIndexMetadata. by rewrite Hmiss, Hget.
Qed.

(** A miss on which the provider succeeds: the parsed metadata is returned
    and stored under the table name. *)
Lemma pullIndexMetadata_miss_ok client tableName (provider' : P)
  (table : TableDescription) :
  tableIndexMetadataCache client !! tableName = None ->
  Get (metadataProvider client) tableName = (provider', Ok table) ->
  pull client tableName
  = ({| metadataProvider := provider';
        tableIndexMetadataCache :=
          <[tableName := parse client table]>
            (tableIndexMetadataCache client);
        SecondaryIndexSparsenessThreshold :=
          SecondaryIndexSparsenessThreshold client |},
     [tableName], Ok (parse client table)).
Proof.
  intros Hmiss Hget. unfold pullIndexMetadata. rewrite Hmiss, Hget.
  by erewrite (parseTableIndexMetadata_threshold _ _ client) by reflexivity.
Qed.

(** A call on an uncached table asks the provider for that table. *)
Lemma pullIndexMetadata_miss_calls client tableName :
  tableIndexMetadataCache client !! tableName = None ->
  (pull client tableName).1.2 = [tableName].
Proof.
  intros Hmiss. unfold pullIndexMetadata. rewrite Hmiss.
  by destruct (Get (metadataProvider client) tableName)
    as [provider' [table|err]].
Qed.

(** C7. On a cache hit [pullIndexMetadata] returns the cached metadata,
    asks nothing of the provider and leaves the client as it is. On a miss
    it asks the provider once. If the provider fails, that very error is
    returned and the cache is unchanged: the table is still uncached and
    the next call asks the provider again. Only if the provider succeeds
    is the parsed metadata returned and stored under the table name, where
    the next call finds it. *)
Theorem pullIndexMetadata_cache client tableName :
  (forall indexMetadata : tableIndexMetadata,
     tableIndexMetadataCache client !! tableName = Some indexMetadata ->
     pull client tableName = (client, [], Ok indexMetadata))
  /\ (forall (provider' : P) (err : E),
        tableIndexMetadataCache client !! tableName = None ->
        Get (metadataProvider client) tableName = (provider', Err err) ->
        exists client',
          pull client tableName = (client', [tableName], Err err)
          /\ tableIndexMetadataCache client'
             = tableIndexMetadataCache client
          /\ tableIndexMetadataCache client' !! tableName = None
          /\ metadataProvider client' = provider'
          /\ SecondaryIndexSparsenessThreshold client'
             = SecondaryIndexSparsenessThreshold client
          /\ (pull client' tableName).1.2 = [tableName])
  /\ (forall (provider' : P) (table : TableDescription),
        tableIndexMetadataCache client !! tableName = None ->
        Get (metadataProvider client) tableName = (provider', Ok table) ->
        exists client',
          pull client tableName
          = (client', [tableName], Ok (parse client table))
          /\ tableIndexMetadataCache client'
             = <[tableName := parse client table]>
                 (tableIndexMetadataCache client)
          /\ metadataProvider client' = provider'
          /\ SecondaryIndexSparsenessThreshold client'
             = SecondaryIndexSparsenessThreshold client
          /\ pull client' tableName
             = (client', [], Ok (parse client table))).
Proof.
  split; [|split].
  - apply pullIndexMetadata_hit.
  - intros provider' err Hmiss Hget.
    eexists. split; [by apply pullIndexMetadata_miss_err|]. simpl.
    repeat (split; [done|]).
    by apply pullIndexMetadata_miss_calls.
  - intros provider' table Hmiss Hget.
    eexists. split; [by apply pullIndexMetadata_miss_ok|]. simpl.
    repeat (split; [done|]).
    apply pullIndexMetadata_hit. simpl. by rewrite lookup_insert_eq.
Qed.

End Cache.

(** The provider fails once and then succeeds: the first call hands the
    error on and caches nothing, the second call asks again. *)
Lemma pullIndexMetadata_cache_witness :
  tableIndexMetadataCache (sampleClient [Err "throttled"; Ok tablePrimaryOnly])
    !! "t" = None
  /\ exists client',
       pullIndexMetadata samplePrimaryName
         (sampleClient [Err "throttled"; Ok tablePrimaryOnly]) "t"
       = (client', ["t"], Err "throttled")
       /\ tableIndexMetadataCache client' !! "t" = None
       /\ (pullIndexMetadata samplePrimaryName client' "t").1.2 = ["t"].
Proof.
  split; [reflexivity|].
  destruct (proj1 (proj2 (pullIndexMetadata_cache samplePrimaryName
                            (sampleClient
                               [Err "throttled"; Ok tablePrimaryOnly]) "t"))
              [Ok tablePrimaryOnly] "throttled" eq_refl eq_refl)
    as (client' & Hpull & _ & Hnone & _ & _ & Hagain).
  exists client'. repeat split; assumption.
Defined.

(** * Properties of the selection *)

Section Selection.

(** The loop of [chooseIndex], for any scoring function. *)
Variable score : tableIndex -> Expression -> Q * option ErrIndexNotViable.
Variable expr : Expression.

Lemma Qgt_bool_true (x y : Q) : Qgt_bool x y = true <-> (y < x)%Q.
Proof.
  unfold Qgt_bool. rewrite negb_true_iff, <- not_true_iff_false, Qle_bool_iff.
  split; [apply Qnot_le_lt|apply Qlt_not_le].
Qed.

Lemma Qgt_bool_false (x y : Q) : Qgt_bool x y = false <-> (x <= y)%Q.
Proof. unfold Qgt_bool. rewrite negb_false_iff. apply Qle_bool_iff. Qed.

Lemma chooseIndexLoop_spec (indexes : list tableIndex) :
  let st := chooseIndexLoop score expr indexes in
  inviableErrs st = omap (fun i => (score i expr).2) indexes
  /\ match bestIndex st with
     | None =>
         bestIndexScore st = 0%Q
         /\ forall i, i ∈ indexes -> (score i expr).2 = None ->
                      ((score i expr).1 <= 0)%Q
     | Some best =>
         exists pre post,
           indexes = pre ++ best :: post
           /\ (score best expr).2 = None
           /\ bestIndexScore st = (score best expr).1
           /\ (0 < (score best expr).1)%Q
           /\ (forall i, i ∈ pre -> (score i expr).2 = None ->
                         ((score i expr).1 < (score best expr).1)%Q)
           /\ (forall i, i ∈ post -> (score i expr).2 = None ->
                         ((score i expr).1 <= (score best expr).1)%Q)
     end.
Proof.
  induction indexes as [|x l IH] using rev_ind.
  - simpl. split; [done|]. split; [done|]. intros i Hi. inversion Hi.
  - unfold chooseIndexLoop in *. rewrite foldl_app. simpl.
    set (st := foldl _ _ l) in *. simpl in IH. destruct IH as [Herrs Hbest].
    rewrite omap_app. simpl.
    unfold chooseIndexStep.
    destruct (score x expr) as [s e] eqn:Hs. destruct e as [e|].
    + simpl. split; [by rewrite Herrs|].
      destruct (bestIndex st) as [best|].
      * destruct Hbest as (pre & post & -> & Hv & Hsc & Hpos & Hpre & Hpost).
        exists pre, (post ++ [x]). rewrite <- app_assoc. simpl.
        repeat (split; [done|]).
        intros i [Hi|Hi]%elem_of_app Hvi; [by apply Hpost|].
        apply list_elem_of_singleton in Hi. subst i. rewrite Hs in Hvi. done.
      * destruct Hbest as [Hz Hall]. split; [done|].
        intros i [Hi|Hi]%elem_of_app Hvi; [by apply Hall|].
        apply list_elem_of_singleton in Hi. subst i. rewrite Hs in Hvi. done.
    + simpl.
      destruct (Qgt_bool s (bestIndexScore st)) eqn:Hgt; simpl.
      * rewrite app_nil_r. split; [done|].
        apply Qgt_bool_true in Hgt.
        exists l, []. rewrite Hs. simpl. repeat (split; [done|]).
        destruct (bestIndex st) as [best|].
        -- destruct Hbest as (pre & post & -> & Hv & Hsc & Hpos & Hpre & Hpost).
           rewrite Hsc in Hgt.
           split; [by eapply Qlt_trans|]. split; [|intros i Hi; inversion Hi].
           intros i [Hi|Hi]%elem_of_app Hvi.
           ++ eapply Qlt_trans; [by apply Hpre|done].
           ++ apply elem_of_cons in Hi as [->|Hi]; [done|].
              eapply Qle_lt_trans; [by apply Hpost|done].
        -- destruct Hbest as [Hz Hall]. rewrite Hz in Hgt.
           split; [done|]. split; [|intros i Hi; inversion Hi].
           intros i Hi Hvi. eapply Qle_lt_trans; [by apply Hall|done].
      * rewrite app_nil_r. split; [done|].
        apply Qgt_bool_false in Hgt.
        destruct (bestIndex st) as [best|].
        -- destruct Hbest as (pre & post & -> & Hv & Hsc & Hpos & Hpre & Hpost).
           exists pre, (post ++ [x]). rewrite <- app_assoc. simpl.
           repeat (split; [done|]).
           intros i [Hi|Hi]%elem_of_app Hvi; [by apply Hpost|].
           apply list_elem_of_singleton in Hi. subst i. rewrite Hs. simpl.
           by rewrite <- Hsc.
        -- destruct Hbest as [Hz Hall]. split; [done|].
           intros i [Hi|Hi]%elem_of_app Hvi; [by apply Hall|].
           apply list_elem_of_singleton in Hi. subst i. rewrite Hs. simpl.
           by rewrite <- Hz.
Qed.

(** When the first index of the sequence is scored without error, with a
    score above zero that no later index scored without error exceeds, the
    loop keeps the first index: a tie goes to the index seen first. *)
Lemma chooseIndexLoop_first_wins_tie (first : tableIndex)
  (rest : list tableIndex) :
  (score first expr).2 = None ->
  (0 < (score first expr).1)%Q ->
  (forall i, i ∈ rest -> (score i expr).2 = None ->
             ((score i expr).1 <= (score first expr).1)%Q) ->
  bestIndex (chooseIndexLoop score expr (first :: rest)) = Some first.
Proof.
  intros Hv Hpos Hrest.
  pose proof (chooseIndexLoop_spec (first :: rest)) as [_ Hbest].
  simpl in Hbest.
  destruct (bestIndex (chooseIndexLoop score expr (first :: rest)))
    as [best|].
  - destruct Hbest as (pre & post & Heq & Hvb & _ & _ & Hpre & _).
    destruct pre as [|p pre]; simpl in Heq.
    + by injection Heq as ->.
    + injection Heq as <- Hrst. exfalso.
      assert (Hlt : ((score first expr).1 < (score best expr).1)%Q).
      { apply Hpre; [left|done]. }
      assert (Hle : ((score best expr).1 <= (score first expr).1)%Q).
      { apply Hrest; [|done]. rewrite Hrst. apply elem_of_app. right. left. }
      apply (Qlt_irrefl (score first expr).1).
      by eapply Qlt_le_trans.
  - destruct Hbest as [_ Hall]. exfalso.
    apply (Qlt_irrefl 0). eapply Qlt_le_trans; [exact Hpos|].
    apply Hall; [left|done].
Qed.

End Selection.

(** ** The selection with the scoring of the source *)

Section Choose.

Variable tablePrimaryIndexName : string.

Context {P E : Type} `{!TableDescriptionProvider P E}.

Implicit Types (client : @Client P) (tableName : string).
Implicit Types (index : tableIndex) (expr : Expression).

Local Abbreviation pull := (pullIndexMetadata tablePrimaryIndexName).
Local Abbreviation parse := (parseTableIndexMetadata tablePrimaryIndexName).
Local Abbreviation primaryOf := (parsePrimaryIndex tablePrimaryIndexName).
Local Abbreviation choose := (chooseIndex tablePrimaryIndexName).

(** Both returns of [scoreIndexOnExpr] turn the index down. *)
Lemma scoreIndexOnExpr_rejection index expr :
  scoreIndexOnExpr index expr = (0%Q, Some (rejection expr index)).
Proof.
  unfold scoreIndexOnExpr, rejection.
  by destruct (listIndexViabilityInfractions index expr).
Qed.

Lemma rejection_reasons index expr :
  (listIndexViabilityInfractions index expr <> [] ->
   NotViableReasons (rejection expr index)
   = listIndexViabilityInfractions index expr)
  /\ (listIndexViabilityInfractions index expr = [] ->
      NotViableReasons (rejection expr index) = ["not yet implemented"]).
Proof.
  unfold rejection.
  by destruct (listIndexViabilityInfractions index expr).
Qed.

(** So the loop keeps no index and gathers one error per index. *)
Lemma chooseIndexLoop_scoreIndexOnExpr expr (indexes : list tableIndex) :
  chooseIndexLoop scoreIndexOnExpr expr indexes
  = {| bestIndex := None; bestIndexScore := 0%Q;
       inviableErrs := rejection expr <$> indexes |}.
Proof.
  unfold chooseIndexLoop.
  change (rejection expr <$> indexes)
    with ([] ++ (rejection expr <$> indexes)).
  generalize (@nil ErrIndexNotViable) as errs.
  induction indexes as [|index indexes IH]; intros errs; simpl.
  - by rewrite app_nil_r.
  - unfold chooseIndexStep at 2.
    rewrite scoreIndexOnExpr_rejection. simpl.
    by rewrite IH, <- app_assoc.
Qed.

Lemma chooseIndex_unfold client tableName expr :
  choose client tableName expr
  = let '(client', calls, pulled) := pull client tableName in
    (client', calls,
     match pulled with
     | Err err => Err (providerFailure err)
     | Ok indexMetadata =>
         Err (noViableIndexes
                {| IndexErrs := rejection expr <$> Indexes indexMetadata |})
     end).
Proof.
  unfold chooseIndex, chooseIndexWith.
  destruct (pull client tableName) as [[client' calls] [md|err]]; [|done].
  by rewrite chooseIndexLoop_scoreIndexOnExpr.
Qed.

Lemma chooseIndex_after_fetch client tableName (provider' : P)
  (table : TableDescription) expr :
  tableIndexMetadataCache client !! tableName = None ->
  Get (metadataProvider client) tableName = (provider', Ok table) ->
  (choose client tableName expr).2
  = Err (noViableIndexes
           {| IndexErrs :=
                rejection expr <$> Indexes (parse client table) |}).
Proof.
  intros Hmiss Hget. rewrite chooseIndex_unfold.
  by rewrite (pullIndexMetadata_miss_ok tablePrimaryIndexName client
                tableName provider' table Hmiss Hget).
Qed.

(** A primary index whose partition key carries an equals filter has no
    infraction when the expression neither orders nor selects. *)
Lemma primary_index_no_infraction (table : TableDescription) expr :
  hasEqualsFilter expr (PartitionKey (primaryOf table)) = true ->
  orderSpecified expr = false ->
  attributesSpecified expr = false ->
  listIndexViabilityInfractions (primaryOf table) expr = [].
Proof.
  intros Heq Horder Hattrs.
  destruct (parsePrimaryIndex_fields tablePrimaryIndexName table)
    as (_ & _ & _ & Hall & Hcons & Hsparse).
  rewrite listIndexViabilityInfractions_rules.
  unfold rulePartitionKey, ruleConsistency, ruleOrder, ruleAttributes,
    ruleSparse.
  rewrite Heq, Horder, Hattrs, Hall, Hcons, Hsparse.
  by rewrite andb_false_r.
Qed.

(** C1, as amended. For every index and expression [scoreIndexOnExpr]
    turns the index down, with the score 0 and an error named after the
    index: the error carries the infraction list when the list is
    non-empty and the single reason "not yet implemented" when it is
    empty. So [chooseIndex] returns no index: it hands on the provider's
    error, or returns [ErrNoViableIndexes] with one entry per index, in
    order. For a table whose only index is the primary index, an
    expression with an equals filter on its partition key, no order and no
    attribute selection has no infraction on the primary index, and
    [chooseIndex] returns [ErrNoViableIndexes] whose one entry names the
    primary index with the reason "not yet implemented". *)
Theorem chooseIndex_turns_down_every_index :
  (forall index expr,
     scoreIndexOnExpr index expr = (0%Q, Some (rejection expr index))
     /\ IndexName (rejection expr index) = Name index
     /\ (listIndexViabilityInfractions index expr <> [] ->
         NotViableReasons (rejection expr index)
         = listIndexViabilityInfractions index expr)
     /\ (listIndexViabilityInfractions index expr = [] ->
         NotViableReasons (rejection expr index)
         = ["not yet implemented"]))
  /\ (forall client tableName expr,
        choose client tableName expr
        = let '(client', calls, pulled) := pull client tableName in
          (client', calls,
           match pulled with
           | Err err => Err (providerFailure err)
           | Ok indexMetadata =>
               Err (noViableIndexes
                      {| IndexErrs :=
                           rejection expr <$> Indexes indexMetadata |})
           end))
  /\ (forall client tableName expr,
        isOk (choose client tableName expr).2 = false)
  /\ (forall client tableName (provider' : P) (table : TableDescription)
             expr,
        tableIndexMetadataCache client !! tableName = None ->
        Get (metadataProvider client) tableName = (provider', Ok table) ->
        GlobalSecondaryIndexes table = [] ->
        LocalSecondaryIndexes table = [] ->
        hasEqualsFilter expr (PartitionKey (primaryOf table)) = true ->
        orderSpecified expr = false ->
        attributesSpecified expr = false ->
        listIndexViabilityInfractions (primaryOf table) expr = []
        /\ (choose client tableName expr).2
           = Err (noViableIndexes
                    {| IndexErrs :=
                         [ {| IndexName := tablePrimaryIndexName;
                              NotViableReasons :=
                                ["not yet implemented"] |} ] |})).
Proof.
  split; [|split; [|split]].
  - intros index expr. split; [apply scoreIndexOnExpr_rejection|].
    split; [done|]. apply rejection_reasons.
  - apply chooseIndex_unfold.
  - intros client tableName expr. rewrite chooseIndex_unfold.
    by destruct (pull client tableName) as [[client' calls] [md|err]].
  - intros client tableName provider' table expr Hmiss Hget Hgsi Hlsi
      Heq Horder Hattrs.
    pose proof (primary_index_no_infraction table expr Heq Horder Hattrs)
      as Hnone.
    split; [done|].
    rewrite (chooseIndex_after_fetch _ _ _ _ _ Hmiss Hget).
    rewrite parseTableIndexMetadata_Indexes, Hgsi, Hlsi. simpl.
    unfold rejection. rewrite Hnone.
    by destruct (parsePrimaryIndex_fields tablePrimaryIndexName table)
      as (-> & _).
Qed.

(** C3, as amended. The parsed sequence is the primary index, then the
    global secondary indexes, then the local secondary indexes. The loop
    of [chooseIndex] scans a sequence in order and, for any scoring
    function, keeps among the indexes scored without error the first one
    that attains the highest score, provided that score is above zero; so
    an index at the head of the sequence, as the primary index is, wins a
    tie with a later one. With [scoreIndexOnExpr] as it is, every index is
    scored with an error: after a successful fetch [chooseIndex] returns
    [ErrNoViableIndexes] with one entry per index in the parsed order,
    also when several indexes have no infraction. *)
Theorem chooseIndex_scans_in_parsed_order :
  (forall client (table : TableDescription),
     Indexes (parse client table)
     = primaryOf table
       :: (parseGlobalSecondaryIndex client (ItemCount table)
             (getKeys (primaryOf table)) <$> GlobalSecondaryIndexes table)
       ++ (parseLocalSecondaryIndex client (ItemCount table)
             (getKeys (primaryOf table)) <$> LocalSecondaryIndexes table))
  /\ (forall (score : tableIndex -> Expression
                      -> Q * option ErrIndexNotViable)
             expr (indexes : list tableIndex),
        inviableErrs (chooseIndexLoop score expr indexes)
        = omap (fun i => (score i expr).2) indexes
        /\ match bestIndex (chooseIndexLoop score expr indexes) with
           | None =>
               forall i, i ∈ indexes -> (score i expr).2 = None ->
                         ((score i expr).1 <= 0)%Q
           | Some best =>
               exists pre post,
                 indexes = pre ++ best :: post
                 /\ (score best expr).2 = None
                 /\ (0 < (score best expr).1)%Q
                 /\ (forall i, i ∈ pre -> (score i expr).2 = None ->
                       ((score i expr).1 < (score best expr).1)%Q)
                 /\ (forall i, i ∈ post -> (score i expr).2 = None ->
                       ((score i expr).1 <= (score best expr).1)%Q)
           end)
  /\ (forall (score : tableIndex -> Expression
                      -> Q * option ErrIndexNotViable)
             expr (first : tableIndex) (rest : list tableIndex),
        (score first expr).2 = None ->
        (0 < (score first expr).1)%Q ->
        (forall i, i ∈ rest -> (score i expr).2 = None ->
                   ((score i expr).1 <= (score first expr).1)%Q) ->
        bestIndex (chooseIndexLoop score expr (first :: rest))
        = Some first)
  /\ (forall client tableName (provider' : P) (table : TableDescription)
             expr,
        tableIndexMetadataCache client !! tableName = None ->
        Get (metadataProvider client) tableName = (provider', Ok table) ->
        (choose client tableName expr).2
        = Err (noViableIndexes
                 {| IndexErrs :=
                      rejection expr (primaryOf table)
                      :: (rejection expr <$>
                            (parseGlobalSecondaryIndex client
                               (ItemCount table)
                               (getKeys (primaryOf table))
                               <$> GlobalSecondaryIndexes table))
                      ++ (rejection expr <$>
                            (parseLocalSecondaryIndex client
                               (ItemCount table)
                               (getKeys (primaryOf table))
                               <$> LocalSecondaryIndexes table)) |})).
Proof.
  split; [apply parseTableIndexMetadata_Indexes|].
  split; [|split].
  - intros score expr indexes.
    pose proof (chooseIndexLoop_spec score expr indexes) as [Herrs Hbest].
    split; [done|]. simpl in Hbest.
    destruct (bestIndex (chooseIndexLoop score expr indexes)) as [best|].
    + destruct Hbest as (pre & post & ? & ? & _ & ? & ? & ?).
      by exists pre, post.
    + by destruct Hbest.
  - intros score expr first rest.
    apply chooseIndexLoop_first_wins_tie.
  - intros client tableName provider' table expr Hmiss Hget.
    rewrite (chooseIndex_after_fetch _ _ _ _ _ Hmiss Hget).
    by rewrite parseTableIndexMetadata_Indexes, fmap_cons, fmap_app.
Qed.

End Choose.

(** ** The selection on the sample tables *)

(** Scenario A on the code: the primary index has no infraction and is
    turned down all the same. *)
Lemma chooseIndex_turns_down_every_index_witness :
  listIndexViabilityInfractions
    (parsePrimaryIndex samplePrimaryName tablePrimaryOnly) exprEqualsPk = []
  /\ (chooseIndex samplePrimaryName (sampleClient [Ok tablePrimaryOnly]) "t"
        exprEqualsPk).2
     = Err (noViableIndexes
              {| IndexErrs :=
                   [ {| IndexName := samplePrimaryName;
                        NotViableReasons := ["not yet implemented"] |} ] |}).
Proof.
  apply (proj2 (proj2 (proj2
           (chooseIndex_turns_down_every_index samplePrimaryName)))
           (sampleClient [Ok tablePrimaryOnly]) "t" [] tablePrimaryOnly
           exprEqualsPk);
    reflexivity.
Defined.

(** C1, as it is stated, fails on the table whose only index is the primary
    index with partition key [pk]: there is an equals filter on [pk] and the
    infraction list is empty, yet [chooseIndex] returns an error and not the
    primary index. *)
Lemma chooseIndex_primary_only_counterexample :
  hasEqualsFilter exprEqualsPk "pk" = true
  /\ Indexes (parseTableIndexMetadata samplePrimaryName
                (sampleClient [Ok tablePrimaryOnly]) tablePrimaryOnly)
     = [primaryPk]
  /\ listIndexViabilityInfractions primaryPk exprEqualsPk = []
  /\ (chooseIndex samplePrimaryName (sampleClient [Ok tablePrimaryOnly]) "t"
        exprEqualsPk).2
     <> Ok primaryPk
  /\ isOk (chooseIndex samplePrimaryName
             (sampleClient [Ok tablePrimaryOnly]) "t" exprEqualsPk).2
     = false.
Proof.
  split; [reflexivity|]. split; [reflexivity|]. split; [reflexivity|].
  split; [|reflexivity].
  vm_compute. discriminate.
Qed.

(** After a successful fetch the errors come in the parsed order. *)
Lemma chooseIndex_scans_in_parsed_order_witness :
  tableIndexMetadataCache (sampleClient [Ok tableWithSecondaries]) !! "t"
  = None
  /\ IndexName <$>
     match (chooseIndex samplePrimaryName
              (sampleClient [Ok tableWithSecondaries]) "t" exprPkAndSk2).2
     with
     | Err (noViableIndexes err) => IndexErrs err
     | _ => []
     end
     = [samplePrimaryName; "gsi-all"; "lsi-keys"].
Proof.
  split; [reflexivity|].
  rewrite (proj2 (proj2 (proj2
             (chooseIndex_scans_in_parsed_order samplePrimaryName)))
             (sampleClient [Ok tableWithSecondaries]) "t" []
             tableWithSecondaries exprPkAndSk2 eq_refl eq_refl).
  reflexivity.
Defined.

(** C3, as it is stated, fails on a table where the primary index and a
    global secondary index both have no infraction: [chooseIndex] returns an
    error and not the primary index. *)
Lemma chooseIndex_tie_counterexample :
  exists (primary gsi lsi : tableIndex),
    Indexes (parseTableIndexMetadata samplePrimaryName
               (sampleClient [Ok tableWithSecondaries]) tableWithSecondaries)
    = [primary; gsi; lsi]
    /\ Name primary = samplePrimaryName
    /\ listIndexViabilityInfractions primary exprPkAndSk2 = []
    /\ listIndexViabilityInfractions gsi exprPkAndSk2 = []
    /\ (chooseIndex samplePrimaryName
          (sampleClient [Ok tableWithSecondaries]) "t" exprPkAndSk2).2
       <> Ok primary
    /\ isOk (chooseIndex samplePrimaryName
               (sampleClient [Ok tableWithSecondaries]) "t" exprPkAndSk2).2
       = false.
Proof.
  do 3 eexists. split; [reflexivity|]. split; [reflexivity|].
  split; [reflexivity|]. split; [reflexivity|]. split; [|reflexivity].
  vm_compute. discriminate.
Qed.

(** * Further properties of the viability analysis *)

Section ViabilityFurther.

Implicit Types (index : tableIndex) (expr : Expression).

Lemma rulePartitionKey_nil index expr :
  rulePartitionKey index expr = []
  <-> exists v, filters expr !! PartitionKey index = Some (equalsFilter v).
Proof.
  rewrite <- hasEqualsFilter_true. unfold rulePartitionKey.
  by destruct (hasEqualsFilter expr (PartitionKey index)).
Qed.

Lemma ruleConsistency_nil index expr :
  ruleConsistency index expr = []
  <-> (consistentRead expr = true -> ConsistentReadable index = true).
Proof.
  unfold ruleConsistency.
  destruct (consistentRead expr), (ConsistentReadable index); simpl;
    split; try done; intros H; by specialize (H eq_refl).
Qed.

Lemma ruleOrder_nil index expr :
  ruleOrder index expr = []
  <-> (orderSpecified expr = true -> orderAttribute expr = SortKey index).
Proof.
  unfold ruleOrder. destruct (orderSpecified expr); simpl; [|done].
  case_bool_decide as Heq; simpl; split; try done.
  intros H. by specialize (H eq_refl).
Qed.

Lemma missingAttrs_nil index expr :
  missingAttrs index expr = []
  <-> forall a : string, a ∈ attributes expr -> a ∈ AttributeSet index.
Proof.
  split.
  - intros Hnil a Ha. destruct (decide (a ∈ AttributeSet index)); [done|].
    assert (Hin : a ∈ missingAttrs index expr)
      by by apply elem_of_missingAttrs.
    rewrite Hnil in Hin. inversion Hin.
  - intros Hall. destruct (missingAttrs index expr) as [|m ms] eqn:Hm; [done|].
    assert (Hin : m ∈ missingAttrs index expr) by (rewrite Hm; left).
    apply elem_of_missingAttrs in Hin as [Hin Hnot]. by apply Hall in Hin.
Qed.

Lemma ruleAttributes_nil index expr :
  ruleAttributes index expr = []
  <-> (attributesSpecified expr = true ->
       forall a : string, a ∈ attributes expr -> a ∈ AttributeSet index)
      /\ (attributesSpecified expr = false ->
          IncludesAllAttributes index = true).
Proof.
  unfold ruleAttributes. destruct (attributesSpecified expr).
  - rewrite <- missingAttrs_nil.
    destruct (missingAttrs index expr); split; try done.
    + intros [H _]. by specialize (H eq_refl).
  - destruct (IncludesAllAttributes index); split; try done.
    intros [_ H]. by specialize (H eq_refl).
Qed.

Lemma ruleSparse_nil index expr :
  ruleSparse index expr = []
  <-> (IsSparse index = true -> is_Some (filters expr !! SortKey index)).
Proof.
  unfold ruleSparse. destruct (IsSparse index); [|done].
  destruct (filters expr !! SortKey index) as [f|]; split; try done.
  intros H. destruct (H eq_refl) as [f Hf]. discriminate.
Qed.

(** X1. An index has no infraction exactly when the expression has an
    equals filter on its partition key, asks for a consistent read only of a
    consistent-readable index, orders only by its sort key, selects only
    members of its attribute set or, selecting nothing, meets an index that
    includes all attributes, and, for a sparse index, has an entry for its
    sort key. *)
Theorem no_infraction_iff index expr :
  listIndexViabilityInfractions index expr = []
  <-> (exists v, filters expr !! PartitionKey index = Some (equalsFilter v))
      /\ (consistentRead expr = true -> ConsistentReadable index = true)
      /\ (orderSpecified expr = true ->
          orderAttribute expr = SortKey index)
      /\ (attributesSpecified expr = true ->
          forall a : string, a ∈ attributes expr -> a ∈ AttributeSet index)
      /\ (attributesSpecified expr = false ->
          IncludesAllAttributes index = true)
      /\ (IsSparse index = true ->
          is_Some (filters expr !! SortKey index)).
Proof.
  rewrite listIndexViabilityInfractions_rules.
  rewrite !app_nil.
  rewrite rulePartitionKey_nil, ruleConsistency_nil, ruleOrder_nil,
    ruleAttributes_nil, ruleSparse_nil.
  tauto.
Qed.

(** X2. The loop over the selected attributes collects exactly those that
    are not members of the attribute set of the index, in the order of the
    selection and as often as they are selected; it collects nothing exactly
    when every selected attribute is a member. *)
Theorem collectMissingAttrs_spec index (attrs : list string) :
  collectMissingAttrs index attrs
  = filter (fun a => a ∉ AttributeSet index) attrs
  /\ (forall a : string,
        a ∈ collectMissingAttrs index attrs
        <-> a ∈ attrs /\ a ∉ AttributeSet index)
  /\ collectMissingAttrs index attrs `sublist_of` attrs
  /\ (collectMissingAttrs index attrs = []
      <-> forall a : string, a ∈ attrs -> a ∈ AttributeSet index).
Proof.
  assert (Heq : collectMissingAttrs index attrs
                = filter (fun a => a ∉ AttributeSet index) attrs)
    by apply foldl_missing_filter.
  split; [done|]. rewrite Heq. split; [|split].
  - intros a. rewrite list_elem_of_filter. tauto.
  - apply sublist_filter.
  - split.
    + intros Hnil a Ha. destruct (decide (a ∈ AttributeSet index)); [done|].
      assert (Hin : a ∈ filter (fun a => a ∉ AttributeSet index) attrs)
        by by apply list_elem_of_filter.
      rewrite Hnil in Hin. inversion Hin.
    + intros Hall.
      destruct (filter (fun a => a ∉ AttributeSet index) attrs)
        as [|m ms] eqn:Hm; [done|].
      assert (Hin : m ∈ filter (fun a => a ∉ AttributeSet index) attrs)
        by (rewrite Hm; left).
      apply list_elem_of_filter in Hin as [Hnot Hin]. by apply Hall in Hin.
Qed.

End ViabilityFurther.

(** * Further properties of the metadata parser *)

Section ParserFurther.

Variable tablePrimaryIndexName : string.

Context {P : Type}.

Implicit Types (client : @Client P) (table : TableDescription).
Implicit Types (expr : Expression) (d : SecondaryIndexDescription).

Local Abbreviation parse := (parseTableIndexMetadata tablePrimaryIndexName).
Local Abbreviation primaryOf := (parsePrimaryIndex tablePrimaryIndexName).

(** X3. One index per description: the parsed indexes carry, in order, the
    reserved name and then the names of the global and of the local
    secondary indexes, with their item counts; the primary index and the
    local ones are consistent-readable, the global ones are not. Indexes of
    the same name are all kept. *)
Theorem parsed_indexes_by_description client table :
  let indexes :=
    Indexes (parseTableIndexMetadata tablePrimaryIndexName client table) in
  Name <$> indexes
  = tablePrimaryIndexName
    :: (siIndexName <$> GlobalSecondaryIndexes table)
    ++ (siIndexName <$> LocalSecondaryIndexes table)
  /\ Size <$> indexes
     = ItemCount table
       :: (siItemCount <$> GlobalSecondaryIndexes table)
       ++ (siItemCount <$> LocalSecondaryIndexes table)
  /\ ConsistentReadable <$> indexes
     = true
       :: ((fun _ => false) <$> GlobalSecondaryIndexes table)
       ++ ((fun _ => true) <$> LocalSecondaryIndexes table)
  /\ length indexes
     = S (length (GlobalSecondaryIndexes table)
          + length (LocalSecondaryIndexes table)).
Proof.
  cbv zeta.
  rewrite parseTableIndexMetadata_Indexes.
  destruct (parsePrimaryIndex_fields tablePrimaryIndexName table)
    as (Hn & Hs & _ & _ & Hc & _).
  rewrite !fmap_cons, !fmap_app, <- !list_fmap_compose, Hn, Hs, Hc.
  repeat split.
  - f_equal. f_equal; apply list_fmap_ext; intros i d _; unfold compose.
    + by destruct (parseGlobalSecondaryIndex_fields client (ItemCount table)
                     (getKeys (primaryOf table)) d) as (? & ? & ? & _).
    + by destruct (parseLocalSecondaryIndex_fields client (ItemCount table)
                     (getKeys (primaryOf table)) d) as (? & ? & ? & _).
  - f_equal. f_equal; apply list_fmap_ext; intros i d _; unfold compose.
    + by destruct (parseGlobalSecondaryIndex_fields client (ItemCount table)
                     (getKeys (primaryOf table)) d) as (? & ? & ? & _).
    + by destruct (parseLocalSecondaryIndex_fields client (ItemCount table)
                     (getKeys (primaryOf table)) d) as (? & ? & ? & _).
  - f_equal. f_equal; apply list_fmap_ext; intros i d _; unfold compose.
    + by destruct (parseGlobalSecondaryIndex_fields client (ItemCount table)
                     (getKeys (primaryOf table)) d) as (? & ? & ? & _).
    + by destruct (parseLocalSecondaryIndex_fields client (ItemCount table)
                     (getKeys (primaryOf table)) d) as (? & ? & ? & _).
  - simpl. by rewrite length_app, !length_fmap.
Qed.

(** X4. A parsed global secondary index is turned down for consistency
    exactly when the expression asks for a consistent read, so that it then
    has an infraction whatever else holds; a parsed local secondary index is
    never turned down for consistency. *)
Theorem consistent_read_by_index_kind client (tableSize : Z)
  (keys : list string) d expr :
  (reasonConsistency
     ∈ listIndexViabilityInfractions
         (parseGlobalSecondaryIndex client tableSize keys d) expr
   <-> consistentRead expr = true)
  /\ (consistentRead expr = true ->
      listIndexViabilityInfractions
        (parseGlobalSecondaryIndex client tableSize keys d) expr <> [])
  /\ reasonConsistency
       ∉ listIndexViabilityInfractions
           (parseLocalSecondaryIndex client tableSize keys d) expr.
Proof.
  destruct (parseGlobalSecondaryIndex_fields client tableSize keys d)
    as (_ & _ & Hg & _).
  destruct (parseLocalSecondaryIndex_fields client tableSize keys d)
    as (_ & _ & Hl & _).
  split; [|split].
  - rewrite reasonConsistency_elem. split; [by intros [? _]|by intros ?].
  - intros Hread Hnil.
    assert (Hin : reasonConsistency
                    ∈ listIndexViabilityInfractions
                        (parseGlobalSecondaryIndex client tableSize keys d)
                        expr)
      by by apply reasonConsistency_elem.
    rewrite Hnil in Hin. inversion Hin.
  - rewrite reasonConsistency_elem. intros [_ Hfalse]. congruence.
Qed.

(** X5. The primary index is turned down only for the partition key, for
    the order or for an explicit attribute selection: never for consistency,
    for not projecting all attributes, or for sparseness. *)
Theorem primary_index_rules table expr :
  let primary := parsePrimaryIndex tablePrimaryIndexName table in
  listIndexViabilityInfractions primary expr
  = rulePartitionKey primary expr ++ ruleOrder primary expr
    ++ ruleAttributes primary expr
  /\ (reasonConsistency ∉ listIndexViabilityInfractions primary expr)
  /\ (reasonProjectAll ∉ listIndexViabilityInfractions primary expr)
  /\ (reasonSparse primary ∉ listIndexViabilityInfractions primary expr).
Proof.
  cbv zeta.
  destruct (parsePrimaryIndex_fields tablePrimaryIndexName table)
    as (_ & _ & _ & Hall & Hcons & Hsparse).
  split; [|split; [|split]].
  - rewrite listIndexViabilityInfractions_rules.
    unfold ruleConsistency, ruleSparse. rewrite Hcons, Hsparse.
    by rewrite andb_false_r, app_nil_r.
  - rewrite reasonConsistency_elem. intros [_ Hfalse]. congruence.
  - rewrite reasonProjectAll_elem. intros [_ Hfalse]. congruence.
  - rewrite reasonSparse_elem. intros [Hfalse _]. congruence.
Qed.

End ParserFurther.

(** * Further properties of the metadata cache and of the selection *)

Section ClientFurther.

Variable tablePrimaryIndexName : string.

Context {P E : Type} `{!TableDescriptionProvider P E}.

Implicit Types (client : @Client P) (tableName : string).
Implicit Types (expr : Expression).
Implicit Types (score : tableIndex -> Expression
                        -> Q * option ErrIndexNotViable).

Local Abbreviation pull := (pullIndexMetadata tablePrimaryIndexName).
Local Abbreviation parse := (parseTableIndexMetadata tablePrimaryIndexName).
Local Abbreviation choose := (chooseIndex tablePrimaryIndexName).
Local Abbreviation chooseWith :=
  (chooseIndexWith tablePrimaryIndexName).

(** The three ways a call can go. *)
Lemma pullIndexMetadata_cases client tableName :
  (exists md,
     tableIndexMetadataCache client !! tableName = Some md
     /\ pull client tableName = (client, [], Ok md))
  \/ (exists provider' err,
        tableIndexMetadataCache client !! tableName = None
        /\ Get (metadataProvider client) tableName = (provider', Err err)
        /\ pull client tableName
           = ({| metadataProvider := provider';
                 tableIndexMetadataCache := tableIndexMetadataCache client;
                 SecondaryIndexSparsenessThreshold :=
                   SecondaryIndexSparsenessThreshold client |},
              [tableName], Err err))
  \/ (exists provider' table,
        tableIndexMetadataCache client !! tableName = None
        /\ Get (metadataProvider client) tableName = (provider', Ok table)
        /\ pull client tableName
           = ({| metadataProvider := provider';
                 tableIndexMetadataCache :=
                   <[tableName := parse client table]>
                     (tableIndexMetadataCache client);
                 SecondaryIndexSparsenessThreshold :=
                   SecondaryIndexSparsenessThreshold client |},
              [tableName], Ok (parse client table))).
Proof.
  destruct (tableIndexMetadataCache client !! tableName) as [md|] eqn:Hc.
  - left. exists md. split; [done|]. by apply pullIndexMetadata_hit.
  - right.
    destruct (Get (metadataProvider client) tableName)
      as [provider' [table|err]] eqn:Hget.
    + right. exists provider', table. split; [done|]. split; [done|].
      by apply pullIndexMetadata_miss_ok.
    + left. exists provider', err. split; [done|]. split; [done|].
      by apply pullIndexMetadata_miss_err.
Qed.

(** X6. A call never drops or replaces an entry of the cache, touches no
    entry but that of its own table, and leaves the threshold as it is. *)
Theorem pullIndexMetadata_keeps_entries client tableName :
  let client' :=
    (pullIndexMetadata tablePrimaryIndexName client tableName).1.1 in
  (forall (k : string) (md : tableIndexMetadata),
     tableIndexMetadataCache client !! k = Some md ->
     tableIndexMetadataCache client' !! k = Some md)
  /\ (forall k : string,
        k <> tableName ->
        tableIndexMetadataCache client' !! k
        = tableIndexMetadataCache client !! k)
  /\ SecondaryIndexSparsenessThreshold client'
     = SecondaryIndexSparsenessThreshold client.
Proof.
  cbv zeta.
  destruct (pullIndexMetadata_cases client tableName)
    as [(md' & Hc & ->)|[(p' & err & Hc & _ & ->)|(p' & table & Hc & _ & ->)]];
    simpl; repeat split; try done.
  - intros k md Hk. destruct (decide (k = tableName)) as [->|Hne].
    + congruence.
    + by rewrite lookup_insert_ne.
  - intros k Hne. by rewrite lookup_insert_ne.
Qed.

(** X7. What a call returns is what the cache holds afterwards: returned
    metadata is the entry of the table; after an error the cache is the one
    from before the call and has no entry for the table. *)
Theorem pullIndexMetadata_result_cached client tableName :
  let client' :=
    (pullIndexMetadata tablePrimaryIndexName client tableName).1.1 in
  match (pullIndexMetadata tablePrimaryIndexName client tableName).2 with
  | Ok md => tableIndexMetadataCache client' !! tableName = Some md
  | Err _ =>
      tableIndexMetadataCache client' = tableIndexMetadataCache client
      /\ tableIndexMetadataCache client !! tableName = None
  end.
Proof.
  cbv zeta.
  destruct (pullIndexMetadata_cases client tableName)
    as [(md' & Hc & ->)|[(p' & err & Hc & _ & ->)|(p' & table & Hc & _ & ->)]];
    simpl; try done.
  by rewrite lookup_insert_eq.
Qed.

(** X8. A threshold set after the metadata of a table was fetched has no
    effect on that table: the next call returns the metadata parsed under
    the threshold of the time of the fetch, and asks nothing of the
    provider. *)
Theorem threshold_set_after_fetch_is_ignored client tableName
  (provider' : P) (table : TableDescription) (threshold : Q) :
  tableIndexMetadataCache client !! tableName = None ->
  Get (metadataProvider client) tableName = (provider', Ok table) ->
  let client' :=
    withThreshold
      (pullIndexMetadata tablePrimaryIndexName client tableName).1.1
      threshold in
  pullIndexMetadata tablePrimaryIndexName client' tableName
  = (client', [],
     Ok (parseTableIndexMetadata tablePrimaryIndexName client table)).
Proof.
  cbv zeta.
  intros Hmiss Hget.
  rewrite (pullIndexMetadata_miss_ok _ _ _ _ _ Hmiss Hget). simpl.
  apply pullIndexMetadata_hit. simpl. by rewrite lookup_insert_eq.
Qed.

(** [chooseIndex] for a scoring function, by the outcome of the fetch. *)
Lemma chooseIndexWith_unfold score client tableName expr :
  chooseWith score client tableName expr
  = ((pull client tableName).1,
     match (pull client tableName).2 with
     | Err err => Err (providerFailure err)
     | Ok md =>
         match bestIndex (chooseIndexLoop score expr (Indexes md)) with
         | None =>
             Err (noViableIndexes
                    {| IndexErrs :=
                         inviableErrs
                           (chooseIndexLoop score expr (Indexes md)) |})
         | Some best => Ok best
         end
     end).
Proof.
  unfold chooseIndexWith.
  destruct (pull client tableName) as [[client' calls] [md|err]]; [|done].
  simpl. by destruct (bestIndex (chooseIndexLoop score expr (Indexes md))).
Qed.

(** X10. The loop keeps an index exactly when some index is scored without
    error and above zero: an index scored without error at 0.0 or below is
    never chosen. *)
Theorem chooseIndexLoop_keeps_iff score expr (indexes : list tableIndex) :
  is_Some (bestIndex (chooseIndexLoop score expr indexes))
  <-> exists i : tableIndex,
        i ∈ indexes
        /\ (score i expr).2 = None
        /\ (0 < (score i expr).1)%Q.
Proof.
  pose proof (chooseIndexLoop_spec score expr indexes) as [_ Hbest].
  simpl in Hbest.
  destruct (bestIndex (chooseIndexLoop score expr indexes)) as [best|].
  - split; [intros _|by eauto].
    destruct Hbest as (pre & post & Heq & Hv & _ & Hpos & _).
    exists best. repeat split; try done.
    rewrite Heq. apply elem_of_app. right. left.
  - destruct Hbest as [_ Hall]. split; [by intros [? ?]|].
    intros (i & Hin & Hv & Hpos). exfalso.
    apply (Qlt_irrefl 0). eapply Qlt_le_trans; [exact Hpos|by apply Hall].
Qed.

(** X11. When the provider fails on an uncached table, the selection hands
    that error on, whatever the scoring function and the expression, and
    the cache is as before. *)
Theorem chooseIndexWith_provider_error score client tableName expr
  (provider' : P) (err : E) :
  tableIndexMetadataCache client !! tableName = None ->
  Get (metadataProvider client) tableName = (provider', Err err) ->
  let outcome :=
    chooseIndexWith tablePrimaryIndexName score client tableName expr in
  outcome.2 = Err (providerFailure err)
  /\ outcome.1.2 = [tableName]
  /\ tableIndexMetadataCache outcome.1.1 = tableIndexMetadataCache client.
Proof.
  cbv zeta.
  intros Hmiss Hget. rewrite chooseIndexWith_unfold.
  by rewrite (pullIndexMetadata_miss_err _ _ _ _ _ Hmiss Hget).
Qed.

(** X12. A selection that found no index has cached the metadata it
    fetched: the next selection on the table, for any expression, asks
    nothing of the provider, leaves the client as it is and judges the same
    indexes. *)
Theorem chooseIndex_second_call_cached client tableName
  (provider' : P) (table : TableDescription) expr expr' :
  tableIndexMetadataCache client !! tableName = None ->
  Get (metadataProvider client) tableName = (provider', Ok table) ->
  let client' :=
    (chooseIndex tablePrimaryIndexName client tableName expr).1.1 in
  chooseIndex tablePrimaryIndexName client' tableName expr'
  = (client', [],
     Err (noViableIndexes
            {| IndexErrs :=
                 rejection expr'
                 <$> Indexes (parseTableIndexMetadata tablePrimaryIndexName
                                client table) |})).
Proof.
  cbv zeta.
  intros Hmiss Hget.
  assert (Hfirst :
            (choose client tableName expr).1.1
            = {| metadataProvider := provider';
                 tableIndexMetadataCache :=
                   <[tableName := parse client table]>
                     (tableIndexMetadataCache client);
                 SecondaryIndexSparsenessThreshold :=
                   SecondaryIndexSparsenessThreshold client |}).
  { rewrite chooseIndex_unfold.
    by rewrite (pullIndexMetadata_miss_ok _ _ _ _ _ Hmiss Hget). }
  rewrite Hfirst, chooseIndex_unfold.
  rewrite (pullIndexMetadata_hit _ _ _ (parse client table)); [done|].
  simpl. by rewrite lookup_insert_eq.
Qed.

(** X13. The error for no viable index names every index of the table, in
    the order of the metadata, each with at least one reason. *)
Theorem noViableIndexes_names_every_index client tableName expr
  (err : ErrNoViableIndexes) :
  (chooseIndex tablePrimaryIndexName client tableName expr).2
  = Err (noViableIndexes err) ->
  exists md : tableIndexMetadata,
    (pullIndexMetadata tablePrimaryIndexName client tableName).2 = Ok md
    /\ IndexName <$> IndexErrs err = Name <$> Indexes md
    /\ Forall (fun indexErr => NotViableReasons indexErr <> [])
              (IndexErrs err).
Proof.
  rewrite chooseIndex_unfold.
  destruct (pull client tableName) as [[client' calls] [md|e]]; simpl;
    [|done].
  intros [= <-]. exists md. split; [done|]. simpl. split.
  - rewrite <- list_fmap_compose. by apply list_fmap_ext.
  - apply Forall_fmap, Forall_forall. intros index _. simpl.
    unfold rejection. simpl.
    by destruct (listIndexViabilityInfractions index expr).
Qed.

End ClientFurther.

(** * Properties of the keyed parser *)

Section KeyedFurther.

Variable primaryName : string.

Implicit Types (table : TableDescription) (name : string).

(** Storing a sequence of indexes under their names, one after the other:
    under a name lies the last index of that name, or what lay there
    before. *)
Lemma foldl_insert_by_name_lookup {A : Type} (f : A -> tableIndex)
  (l : list A) (m : gmap string tableIndex) name :
  foldl (fun (output : gmap string tableIndex) x =>
           let index := f x in <[Name index := index]> output) m l !! name
  = match last (filter (fun i => Name i = name) (f <$> l)) with
    | Some i => Some i
    | None => m !! name
    end.
Proof.
  revert m. induction l as [|x l IH]; intros m; [done|].
  rewrite fmap_cons, filter_cons. cbn [foldl]. rewrite IH.
  destruct (decide (Name (f x) = name)) as [Heq|Hne].
  - rewrite last_cons.
    destruct (last (filter (fun i => Name i = name) (f <$> l))); [done|].
    by rewrite <- Heq, lookup_insert_eq.
  - destruct (last (filter (fun i => Name i = name) (f <$> l))); [done|].
    by rewrite lookup_insert_ne.
Qed.

Lemma keyed_parseSecondaryIndex_Name (consistent : bool)
  (keys : list string) (si : SecondaryIndexDescription) :
  Name (Keyed.parseSecondaryIndex consistent keys si) = siIndexName si.
Proof.
  unfold Keyed.parseSecondaryIndex.
  match goal with
  | |- context [loadAttributesFromProjection ?i ?p ?k] =>
      destruct (loadAttributesFromProjection_fields i p k) as (-> & _)
  end.
  match goal with
  | |- context [loadKeysFromSchema ?i ?s] =>
      by destruct (loadKeysFromSchema_fields i s) as (-> & _)
  end.
Qed.

Lemma keyedEntries_names table :
  Name <$> keyedEntries primaryName table
  = primaryName
    :: (siIndexName <$> GlobalSecondaryIndexes table)
    ++ (siIndexName <$> LocalSecondaryIndexes table).
Proof.
  unfold keyedEntries.
  rewrite fmap_cons, fmap_app, <- !list_fmap_compose.
  f_equal.
  - match goal with
    | |- context [loadKeysFromSchema ?i ?s] =>
        by destruct (loadKeysFromSchema_fields i s) as (-> & _)
    end.
  - f_equal; apply list_fmap_ext; intros i si _; unfold compose;
      apply keyed_parseSecondaryIndex_Name.
Qed.

Lemma keyed_parse_lookup table name :
  Keyed.Indexes (Keyed.parseTableIndexMetadata primaryName table) !! name
  = last (filter (fun i => Name i = name) (keyedEntries primaryName table)).
Proof.
  unfold Keyed.parseTableIndexMetadata, keyedEntries. simpl.
  rewrite !foldl_insert_by_name_lookup.
  rewrite filter_cons, filter_app.
  match goal with
  | |- context [loadKeysFromSchema ?i ?s] =>
      destruct (loadKeysFromSchema_fields i s) as (Hn & _);
      set (primary := loadKeysFromSchema i s) in *
  end.
  simpl in Hn.
  set (gs := filter _ (_ <$> GlobalSecondaryIndexes table)).
  set (ls := filter _ (_ <$> LocalSecondaryIndexes table)).
  destruct (decide (Name primary = name)) as [Heq|Hne].
  - rewrite last_cons, last_app.
    destruct (last ls); [done|]. destruct (last gs); [done|].
    rewrite <- Heq, Hn. by rewrite lookup_insert_eq.
  - rewrite last_app.
    destruct (last ls); [done|]. destruct (last gs); [done|].
    rewrite lookup_insert_ne by congruence. by rewrite lookup_empty.
Qed.

Lemma filter_by_name_NoDup (l : list tableIndex) (i : tableIndex) :
  NoDup (Name <$> l) -> i ∈ l ->
  filter (fun j => Name j = Name i) l = [i].
Proof.
  induction l as [|j l IH]; intros Hnd Hin; [by inversion Hin|].
  rewrite fmap_cons in Hnd. apply NoDup_cons in Hnd as [Hnotin Hnd].
  rewrite filter_cons.
  apply elem_of_cons in Hin as [->|Hin].
  - rewrite decide_True by done. f_equal.
    destruct (filter (fun k => Name k = Name j) l) as [|k r] eqn:Hf; [done|].
    assert (Hk : k ∈ filter (fun k => Name k = Name j) l)
      by (rewrite Hf; left).
    apply list_elem_of_filter in Hk as [Heq Hk]. exfalso.
    apply Hnotin. rewrite <- Heq. by apply list_elem_of_fmap_2.
  - rewrite decide_False; [by apply IH|].
    intros Heq. apply Hnotin. rewrite Heq. by apply list_elem_of_fmap_2.
Qed.

(** X14. The keyed parser stores each index under its name, the primary
    index first, then the global and the local secondary indexes: under a
    name lies the last parsed index of that name, and nothing lies under a
    name that no index bears. An index whose name comes again later is
    lost. *)
Theorem keyed_parse_last_of_name table name :
  Keyed.Indexes (Keyed.parseTableIndexMetadata primaryName table) !! name
  = last (filter (fun i => Name i = name) (keyedEntries primaryName table))
  /\ (is_Some (Keyed.Indexes
                 (Keyed.parseTableIndexMetadata primaryName table) !! name)
      <-> name ∈ primaryName
                 :: (siIndexName <$> GlobalSecondaryIndexes table)
                 ++ (siIndexName <$> LocalSecondaryIndexes table)).
Proof.
  split; [apply keyed_parse_lookup|].
  rewrite keyed_parse_lookup, <- keyedEntries_names.
  rewrite list_elem_of_fmap. split.
  - intros [i Hi]. apply last_Some_elem_of in Hi.
    apply list_elem_of_filter in Hi as [Hname Hin]. by exists i.
  - intros (i & -> & Hin).
    assert (Hf : i ∈ filter (fun j => Name j = Name i)
                       (keyedEntries primaryName table))
      by by apply list_elem_of_filter.
    destruct (filter (fun j => Name j = Name i)
                (keyedEntries primaryName table)) as [|j l] eqn:Hl
      using rev_ind; [by inversion Hf|].
    rewrite last_snoc. by eexists.
Qed.

(** X15. When the reserved name and the names of the secondary indexes are
    pairwise different, the keyed parser loses no index: every parsed index
    lies under its name, and there are as many entries as descriptions and
    one more. *)
Theorem keyed_parse_distinct_names table :
  NoDup (primaryName
         :: (siIndexName <$> GlobalSecondaryIndexes table)
         ++ (siIndexName <$> LocalSecondaryIndexes table)) ->
  (forall i : tableIndex,
     i ∈ keyedEntries primaryName table ->
     Keyed.Indexes (Keyed.parseTableIndexMetadata primaryName table)
       !! Name i = Some i)
  /\ size (Keyed.Indexes (Keyed.parseTableIndexMetadata primaryName table))
     = S (length (GlobalSecondaryIndexes table)
          + length (LocalSecondaryIndexes table)).
Proof.
  intros Hnd. rewrite <- keyedEntries_names in Hnd.
  assert (Hlook : forall i : tableIndex,
            i ∈ keyedEntries primaryName table ->
            Keyed.Indexes (Keyed.parseTableIndexMetadata primaryName table)
              !! Name i = Some i).
  { intros i Hin. rewrite keyed_parse_lookup.
    by rewrite (filter_by_name_NoDup _ _ Hnd Hin). }
  split; [done|].
  assert (Hdom : dom (Keyed.Indexes
                        (Keyed.parseTableIndexMetadata primaryName table))
                 = list_to_set (Name <$> keyedEntries primaryName table)).
  { apply set_eq. intros name.
    rewrite elem_of_dom, elem_of_list_to_set, list_elem_of_fmap. split.
    - intros [i Hi]. rewrite keyed_parse_lookup in Hi.
      apply last_Some_elem_of in Hi.
      apply list_elem_of_filter in Hi as [Hname Hin]. by exists i.
    - intros (i & -> & Hin). rewrite Hlook by done. by eexists. }
  rewrite <- size_dom, Hdom, size_list_to_set by done.
  rewrite keyedEntries_names. simpl.
  by rewrite length_app, !length_fmap.
Qed.

End KeyedFurther.

(** * The further properties on the sample data *)

(** A consistent read turns the global secondary index of the sample table
    down. *)
Lemma consistent_read_by_index_kind_witness :
  consistentRead exprConsistent = true
  /\ listIndexViabilityInfractions
       (parseGlobalSecondaryIndex (sampleClient []) 100 ["pk"; "sk"] gsiAll)
       exprConsistent <> [].
Proof.
  split; [reflexivity|].
  apply (proj1 (proj2 (consistent_read_by_index_kind
                         (sampleClient []) 100 ["pk"; "sk"] gsiAll
                         exprConsistent))).
  reflexivity.
Defined.

(** Fetching a second table leaves the entry of the first in place. *)
Lemma pullIndexMetadata_keeps_entries_witness :
  exists client' : Client,
    tableIndexMetadataCache client' !! "t"
    = Some (parseTableIndexMetadata samplePrimaryName (sampleClient [])
              tablePrimaryOnly)
    /\ tableIndexMetadataCache
         (pullIndexMetadata samplePrimaryName client' "u").1.1 !! "t"
       = Some (parseTableIndexMetadata samplePrimaryName (sampleClient [])
                 tablePrimaryOnly).
Proof.
  exists (pullIndexMetadata samplePrimaryName
            (sampleClient [Ok tablePrimaryOnly; Ok tableWithSecondaries])
            "t").1.1.
  split; [reflexivity|].
  apply (proj1 (pullIndexMetadata_keeps_entries samplePrimaryName _ "u")).
  reflexivity.
Defined.

(** The threshold is set to 0 after the fetch; the next call returns the
    metadata as it was parsed at the fetch. *)
Lemma threshold_set_after_fetch_is_ignored_witness :
  tableIndexMetadataCache (sampleClient [Ok tableWithSecondaries]) !! "t"
  = None
  /\ (pullIndexMetadata samplePrimaryName
        (withThreshold
           (pullIndexMetadata samplePrimaryName
              (sampleClient [Ok tableWithSecondaries]) "t").1.1
           0%Q)
        "t").2
     = Ok (parseTableIndexMetadata samplePrimaryName
             (sampleClient [Ok tableWithSecondaries]) tableWithSecondaries).
Proof.
  split; [reflexivity|].
  rewrite (threshold_set_after_fetch_is_ignored samplePrimaryName
             (sampleClient [Ok tableWithSecondaries]) "t" []
             tableWithSecondaries 0%Q eq_refl eq_refl).
  reflexivity.
Defined.

(** With a scoring function that accepts every index at 0.0, no index is
    chosen and the error lists no index. *)
Example chooseIndexWith_zero_scores :
  (chooseIndexWith samplePrimaryName scoreZero
     (sampleClient [Ok tableWithSecondaries]) "t" exprPkAndSk2).2
  = Err (noViableIndexes {| IndexErrs := [] |}).
Proof. reflexivity. Qed.

(** The provider is throttled: the selection hands the error on. *)
Lemma chooseIndexWith_provider_error_witness :
  tableIndexMetadataCache (sampleClient [Err "throttled"]) !! "t" = None
  /\ (chooseIndexWith samplePrimaryName scoreViableOne
        (sampleClient [Err "throttled"]) "t" exprEqualsPk).2
     = Err (providerFailure "throttled").
Proof.
  split; [reflexivity|].
  apply (chooseIndexWith_provider_error samplePrimaryName scoreViableOne
           (sampleClient [Err "throttled"]) "t" exprEqualsPk []
           "throttled" eq_refl eq_refl).
Defined.

(** The second selection on the sample table asks nothing of the
    provider. *)
Lemma chooseIndex_second_call_cached_witness :
  tableIndexMetadataCache (sampleClient [Ok tablePrimaryOnly]) !! "t" = None
  /\ (chooseIndex samplePrimaryName
        (chooseIndex samplePrimaryName (sampleClient [Ok tablePrimaryOnly])
           "t" exprEqualsPk).1.1
        "t" exprSelectAB).1.2
     = [].
Proof.
  split; [reflexivity|].
  rewrite (chooseIndex_second_call_cached samplePrimaryName
             (sampleClient [Ok tablePrimaryOnly]) "t" [] tablePrimaryOnly
             exprEqualsPk exprSelectAB eq_refl eq_refl).
  reflexivity.
Defined.

(** The error of the selection on the sample table names its three
    indexes. *)
Lemma noViableIndexes_names_every_index_witness :
  exists err : ErrNoViableIndexes,
    (chooseIndex samplePrimaryName (sampleClient [Ok tableWithSecondaries])
       "t" exprPkAndSk2).2
    = Err (noViableIndexes err)
    /\ exists md : tableIndexMetadata,
         (pullIndexMetadata samplePrimaryName
            (sampleClient [Ok tableWithSecondaries]) "t").2 = Ok md
         /\ IndexName <$> IndexErrs err = Name <$> Indexes md
         /\ Forall (fun indexErr => NotViableReasons indexErr <> [])
                   (IndexErrs err).
Proof.
  eexists. split; [reflexivity|].
  apply (noViableIndexes_names_every_index samplePrimaryName
           (sampleClient [Ok tableWithSecondaries]) "t" exprPkAndSk2).
  reflexivity.
Defined.

(** The names of the sample table are pairwise different: its three indexes
    are all stored. *)
Lemma keyed_parse_distinct_names_witness :
  NoDup (samplePrimaryName
         :: (siIndexName <$> GlobalSecondaryIndexes tableWithSecondaries)
         ++ (siIndexName <$> LocalSecondaryIndexes tableWithSecondaries))
  /\ size (Keyed.Indexes
             (Keyed.parseTableIndexMetadata samplePrimaryName
                tableWithSecondaries))
     = 3%nat.
Proof.
  assert (Hnd : NoDup
                  (samplePrimaryName
                   :: (siIndexName
                         <$> GlobalSecondaryIndexes tableWithSecondaries)
                   ++ (siIndexName
                         <$> LocalSecondaryIndexes tableWithSecondaries))).
  { apply (bool_decide_unpack _). vm_compute. reflexivity. }
  split; [exact Hnd|].
  apply (proj2 (keyed_parse_distinct_names samplePrimaryName
                  tableWithSecondaries Hnd)).
Defined.

(** Where the local secondary index bears the name of the global one, the
    keyed parser keeps the local one only; the parser of the client keeps
    both. *)
Example keyed_parse_same_names :
  ConsistentReadable
    <$> Keyed.Indexes
          (Keyed.parseTableIndexMetadata samplePrimaryName tableSameNames)
        !! "gsi-all"
  = Some true
  /\ size (Keyed.Indexes
             (Keyed.parseTableIndexMetadata samplePrimaryName
                tableSameNames))
     = 2%nat
  /\ Name <$> Indexes (parseTableIndexMetadata samplePrimaryName
                         (sampleClient []) tableSameNames)
     = [samplePrimaryName; "gsi-all"; "gsi-all"].
Proof. repeat split; vm_compute; reflexivity. Qed.
